(** * Pitch names, octave arithmetic and the pitch scanner of
      [frescobaldi_app/ly/pitch/__init__.py]

    A shallow embedding of the module: the language table [pitchInfo], the
    two codecs [PitchWriter] and [PitchReader], the octave helpers, the
    generators [PitchIterator.tokens] and [PitchIterator.pitches], and the
    write-back [PitchIterator.write].

    Python data is rendered as follows.  Integers are [Z].  An alteration is
    a rational ([Fraction], or a number that compares equal to one): [Q],
    compared with [==].  Strings are [string].  A raised exception is the
    [Raise] branch of [result].  The document that receives the edits is the
    log of the calls made on it. *)

From Stdlib Require Import ZArith QArith List String Ascii Bool Lia Sorted.
Import ListNotations.

Local Open Scope string_scope.
Local Open Scope Z_scope.

(** ** Exceptions and results *)

Inductive exn : Type :=
| IndexError
| KeyError (key : string)
| ValueError
| AttributeError
| PitchNameNotAvailable (language : string).

Inductive result (A : Type) : Type :=
| Ok (a : A)
| Raise (e : exn).

Arguments Ok {A} a.
Arguments Raise {A} e.

Definition bind {A B : Type} (r : result A) (k : A -> result B) : result B :=
  match r with
  | Ok a => k a
  | Raise e => Raise e
  end.

Notation "x <- r ;; k" := (bind r (fun x => k))
  (at level 61, r at next level, right associativity).

(** ** Python primitives used by the module *)

Module Py.

(** [text.startswith(p)] *)
Fixpoint startswith (text p : string) {struct p} : bool :=
  match p with
  | EmptyString => true
  | String c p' =>
      match text with
      | EmptyString => false
      | String d text' => Ascii.eqb d c && startswith text' p'
      end
  end.

(** [text[n:]] for [n >= 0] *)
Fixpoint drop (n : nat) (text : string) : string :=
  match n with
  | O => text
  | S n' =>
      match text with
      | EmptyString => EmptyString
      | String _ text' => drop n' text'
      end
  end.

(** [text[:-n]] for [n > 0]: all but the last [n] characters *)
Definition drop_last (n : nat) (text : string) : string :=
  substring 0 (String.length text - n) text.

(** [text.endswith(p)] *)
Definition endswith (text p : string) : bool :=
  (String.length p <=? String.length text)%nat
  && String.eqb (drop (String.length text - String.length p) text) p.

(** [text.count(c)] for a one-character [c] *)
Fixpoint count (c : ascii) (text : string) : Z :=
  match text with
  | EmptyString => 0
  | String d text' => (if Ascii.eqb d c then 1 else 0) + count c text'
  end.

(** [c * n] for a one-character string [c]: empty when [n <= 0] *)
Definition repeat (c : ascii) (n : Z) : string :=
  string_of_list_ascii (List.repeat c (Z.to_nat n)).

(** [text.replace(old, new)] for a non-empty [old]: the occurrences are
    replaced from left to right and do not overlap.  [skip] counts the
    characters of an occurrence that are still to be passed over. *)
Fixpoint replace_from (skip : nat) (old new text : string) : string :=
  match text with
  | EmptyString => EmptyString
  | String c text' =>
      match skip with
      | S k => replace_from k old new text'
      | O =>
          if startswith text old
          then new ++ replace_from (String.length old - 1) old new text'
          else String c (replace_from O old new text')
      end
  end.

Definition replace (text old new : string) : string :=
  replace_from O old new text.

(** [seq[i]]: a negative index counts from the end, an index out of range
    raises [IndexError]. *)
Definition getitem {A : Type} (seq : list A) (i : Z) : result A :=
  let n := Z.of_nat (List.length seq) in
  let j := if i <? 0 then i + n else i in
  if (0 <=? j) && (j <? n)
  then match nth_error seq (Z.to_nat j) with
       | Some a => Ok a
       | None => Raise IndexError
       end
  else Raise IndexError.

(** [seq.index(x)]: the first position of [x], [ValueError] when absent. *)
Fixpoint index_from (i : Z) (seq : list string) (x : string) : result Z :=
  match seq with
  | [] => Raise ValueError
  | y :: seq' => if String.eqb y x then Ok i else index_from (i + 1) seq' x
  end.

Definition index (seq : list string) (x : string) : result Z :=
  index_from 0 seq x.

(** [int(x)] of a rational: truncation towards zero. *)
Definition int (x : Q) : Z := Z.quot (Qnum x) (Zpos (Qden x)).

(** Truth value of a number and of a string. *)
Definition truthy_num (x : Q) : bool := negb (Qeq_bool x 0).
Definition truthy_str (s : string) : bool := negb (String.eqb s "").

(** [Fraction(n, d)] for [d > 0], in lowest terms as Python keeps it. *)
Definition Fraction (n : Z) (d : positive) : Q := Qred (n # d).

End Py.

(** ** The language table *)

(** One entry of [pitchInfo]: note names, accidental suffixes and the
    optional replacement pairs (absent means [()], the constructors'
    default). *)
Record LanguageInfo : Type := mkInfo {
  info_names : list string;
  info_accs : list string;
  info_replacements : list (string * string)
}.

Definition nederlands_info : LanguageInfo :=
  mkInfo ["c";"d";"e";"f";"g";"a";"b"]
         ["eses";"eseh";"es";"eh";"";"ih";"is";"isih";"isis"]
         [("ees","es"); ("aes","as")].

Definition english_info : LanguageInfo :=
  mkInfo ["c";"d";"e";"f";"g";"a";"b"]
         ["ff";"tqf";"f";"qf";"";"qs";"s";"tqs";"ss"]
         [].

Definition deutsch_info : LanguageInfo :=
  mkInfo ["c";"d";"e";"f";"g";"a";"h"]
         ["eses";"eseh";"es";"eh";"";"ih";"is";"isih";"isis"]
         [("ees","es"); ("aes","as"); ("hes","b")].

Definition svenska_info : LanguageInfo :=
  mkInfo ["c";"d";"e";"f";"g";"a";"h"]
         ["essess";"";"ess";"";"";"";"iss";"";"ississ"]
         [("ees","es"); ("aes","as"); ("hess","b")].

Definition italiano_info : LanguageInfo :=
  mkInfo ["do";"re";"mi";"fa";"sol";"la";"si"]
         ["bb";"bsb";"b";"sb";"";"sd";"d";"dsd";"dd"]
         [].

Definition espanol_info : LanguageInfo :=
  mkInfo ["do";"re";"mi";"fa";"sol";"la";"si"]
         ["bb";"";"b";"";"";"";"s";"";"ss"]
         [].

Definition portugues_info : LanguageInfo :=
  mkInfo ["do";"re";"mi";"fa";"sol";"la";"si"]
         ["bb";"btqt";"b";"bqt";"";"sqt";"s";"stqt";"ss"]
         [].

Definition vlaams_info : LanguageInfo :=
  mkInfo ["do";"re";"mi";"fa";"sol";"la";"si"]
         ["bb";"";"b";"";"";"";"k";"";"kk"]
         [].

(** The dictionary, with the three aliases added after the literal. *)
Definition pitchInfo : list (string * LanguageInfo) :=
  [ ("nederlands", nederlands_info);
    ("english", english_info);
    ("deutsch", deutsch_info);
    ("svenska", svenska_info);
    ("italiano", italiano_info);
    ("espanol", espanol_info);
    ("portugues", portugues_info);
    ("vlaams", vlaams_info);
    ("norsk", deutsch_info);
    ("suomi", deutsch_info);
    ("catalan", italiano_info) ].

Definition keys {A : Type} (d : list (string * A)) : list string :=
  map fst d.

Fixpoint lookup {A : Type} (d : list (string * A)) (k : string) : option A :=
  match d with
  | [] => None
  | (k', v) :: d' => if String.eqb k' k then Some v else lookup d' k
  end.

(** [d[k]], raising [KeyError] *)
Definition dict_get {A : Type} (d : list (string * A)) (k : string) : result A :=
  match lookup d k with
  | Some v => Ok v
  | None => Raise (KeyError k)
  end.

(** [k in d.keys()] *)
Definition has_key {A : Type} (d : list (string * A)) (k : string) : bool :=
  existsb (String.eqb k) (keys d).

(** ** Pitch and the octave arithmetic *)

Record Pitch : Type := mkPitch {
  note : Z;
  alter : Q;
  octave : Z
}.

Definition set_octave (p : Pitch) (o : Z) : Pitch :=
  mkPitch (note p) (alter p) o.

(** [self.octave += lastPitch.octave - (self.note - lastPitch.note + 3) // 7];
    [//] is floored division, which is [Z.div] for the positive divisor. *)
Definition makeAbsolute (self lastPitch : Pitch) : Pitch :=
  set_octave self
    (octave self + (octave lastPitch - (note self - note lastPitch + 3) / 7)).

Definition makeRelative (self lastPitch : Pitch) : Pitch :=
  set_octave self
    (octave self - (octave lastPitch - (note self - note lastPitch + 3) / 7)).

(** [octave < 0 and ',' * -octave or "'" * octave] *)
Definition octaveToString (octave : Z) : string :=
  let raised := Py.repeat "'"%char octave in
  if octave <? 0
  then let lowered := Py.repeat ","%char (- octave) in
       if Py.truthy_str lowered then lowered else raised
  else raised.

Definition octaveToNum (octave : string) : Z :=
  Py.count "'"%char octave - Py.count ","%char octave.

(** ** PitchWriter *)

Record PitchWriter : Type := mkWriter {
  w_language : string;
  w_names : list string;
  w_accs : list string;
  w_replacements : list (string * string)
}.

(** The loop over the replacements of [PitchWriter.__call__]: it stops at
    the first pair whose first component starts [pitch]. *)
Fixpoint writer_replace (replacements : list (string * string))
    (pitch : string) : string :=
  match replacements with
  | [] => pitch
  | (s, r) :: rest =>
      if Py.startswith pitch s
      then r ++ Py.drop (String.length s) pitch
      else writer_replace rest pitch
  end.

Definition PitchWriter_call (self : PitchWriter) (note : Z) (alter : Q)
  : result string :=
  pitch <- Py.getitem (w_names self) note ;;
  pitch <- (if Py.truthy_num alter
            then acc <- Py.getitem (w_accs self) (Py.int (alter * 4 + 4)) ;;
                 if Py.truthy_str acc
                 then Ok (pitch ++ acc)
                 else Raise (PitchNameNotAvailable (w_language self))
            else Ok pitch) ;;
  Ok (writer_replace (w_replacements self) pitch).

(** ** PitchReader *)

Record PitchReader : Type := mkReader {
  r_names : list string;
  r_accs : list string;
  r_replacements : list (string * string)
}.

(** The alternatives of the second group of [self.rx]: the non-empty
    accidentals joined with [|]; when there is none the join is the empty
    pattern, which has the empty string as its only alternative. *)
Definition rx_accs (accs : list string) : list string :=
  match filter Py.truthy_str accs with
  | [] => [""]
  | l => l
  end.

(** [$] without [re.MULTILINE]: the end of the string, or just before a
    newline that ends it. *)
Definition at_end (rest : string) : bool :=
  String.eqb rest "" || String.eqb rest (String "010"%char "").

(** The second group followed by [$]: the alternatives are tried in order,
    and the first one after which [$] holds is taken. *)
Fixpoint rx_group2 (alts : list string) (rest : string) : option string :=
  match alts with
  | [] => None
  | a :: alts' =>
      if Py.startswith rest a && at_end (Py.drop (String.length a) rest)
      then Some a
      else rx_group2 alts' rest
  end.

(** [self.rx.match(text)] for the pattern [(n1|..|n7)(a1|..|ak)?$], whose
    names and accidentals are plain letters: a backtracking match anchored
    at the start.  For each name that starts [text], in order, the optional
    group is first tried with each alternative and then skipped.  The result
    is [(m.group(1), m.group(2))], the second being [None] when the group
    did not take part. *)
Fixpoint rx_match (names alts : list string) (text : string)
  : option (string * option string) :=
  match names with
  | [] => None
  | n :: names' =>
      if Py.startswith text n
      then let rest := Py.drop (String.length n) text in
           match rx_group2 alts rest with
           | Some a => Some (n, Some a)
           | None =>
               if at_end rest then Some (n, None)
               else rx_match names' alts text
           end
      else rx_match names' alts text
  end.

(** The first loop of [PitchReader.__call__]; it has no [break], so every
    pair is tested against the text as rewritten so far. *)
Fixpoint reader_replace (replacements : list (string * string))
    (text : string) : string :=
  match replacements with
  | [] => text
  | (s, r) :: rest =>
      reader_replace rest
        (if Py.startswith text r
         then s ++ Py.drop (String.length r) text
         else text)
  end.

(** What is returned for a match object. *)
Definition reader_result (self : PitchReader)
    (m : string * option string) : result (Z * Q) :=
  note <- Py.index (r_names self) (fst m) ;;
  match snd m with
  | Some g2 =>
      if Py.truthy_str g2
      then i <- Py.index (r_accs self) g2 ;;
           Ok (note, Py.Fraction (i - 4) 4)
      else Ok (note, 0%Q)
  | None => Ok (note, 0%Q)
  end.

Definition long_english (text : string) : string :=
  Py.replace (Py.replace text "flat" "f") "sharp" "s".

(** [PitchReader.__call__]: [Ok None] is the returned [False]. *)
Definition PitchReader_call (self : PitchReader) (text : string)
  : result (option (Z * Q)) :=
  let alts := rx_accs (r_accs self) in
  let text := reader_replace (r_replacements self) text in
  match rx_match (r_names self) alts text with
  | Some m => p <- reader_result self m ;; Ok (Some p)
  | None =>
      let text := long_english text in
      match rx_match (r_names self) alts text with
      | Some m => p <- reader_result self m ;; Ok (Some p)
      | None => Ok None
      end
  end.

(** [pitchReader] and [pitchWriter].  The two module dictionaries only keep
    the object built at the first call for a language; an object is never
    changed after [pitchWriter] has set its [language], so a call returns
    what building it anew returns. *)
Definition pitchReader (language : string) : result PitchReader :=
  info <- dict_get pitchInfo language ;;
  Ok (mkReader (info_names info) (info_accs info) (info_replacements info)).

Definition pitchWriter (language : string) : result PitchWriter :=
  info <- dict_get pitchInfo language ;;
  Ok (mkWriter language (info_names info) (info_accs info)
        (info_replacements info)).

(** Decoding and encoding in a language, as the callers compose them. *)
Definition read_in (language text : string) : result (option (Z * Q)) :=
  r <- pitchReader language ;; PitchReader_call r text.

Definition write_in (language : string) (note : Z) (alter : Q)
  : result string :=
  w <- pitchWriter language ;; PitchWriter_call w note alter.


(** ** Tokens *)

(** Modelled from the spec: the token classes of [ly.lex] and
    [ly.lex.lilypond], which this module only tests with [isinstance].
    Section 6 has each token expose its text, its start and end offsets and
    one classification; [LanguageName] is the class declared at the end of
    this module, [Other] stands for every class the module never tests. *)
Inductive TokenClass : Type :=
| Note | Octave | OctaveCheck | Accidental | Keyword | Space
| LanguageName | Other.

Definition TokenClass_eqb (a b : TokenClass) : bool :=
  match a, b with
  | Note, Note | Octave, Octave | OctaveCheck, OctaveCheck
  | Accidental, Accidental | Keyword, Keyword | Space, Space
  | LanguageName, LanguageName | Other, Other => true
  | _, _ => false
  end.

Record Token : Type := mkToken {
  tok_class : TokenClass;
  tok_text : string;
  tok_pos : Z;
  tok_end : Z
}.

Definition isinstance (t : Token) (c : TokenClass) : bool :=
  TokenClass_eqb (tok_class t) c.

(** [LanguageName(lang, pos)]: a token built from its text and position. *)
Definition new_LanguageName (lang : string) (pos : Z) : Token :=
  mkToken LanguageName lang pos (pos + Z.of_nat (String.length lang)).

Definition quote : string := String "034"%char "".

(** ** PitchIterator *)

(** [source] is consumed as it is iterated: it holds the tokens still to
    come.  [language] is [None] until [setLanguage] has set the attribute. *)
Record PitchIterator : Type := mkIterator {
  source : list Token;
  language : option string
}.

(** [setLanguage], as its effect on the attribute [language] and its
    result: [True], or nothing (which is false) when the name is not a key
    of [pitchInfo], the attribute being then left as it is. *)
Definition setLanguage (language : option string) (lang : string)
  : option string * bool :=
  if has_key pitchInfo lang
  then (Some lang, true)
  else (language, false).

(** [__init__]: the attribute does not exist before [setLanguage] runs. *)
Definition PitchIterator_init (source : list Token) : PitchIterator :=
  mkIterator source (fst (setLanguage None "nederlands")).

(** *** The generator [tokens] *)

(** Where the generator stands between two tokens of the source: in the
    outer [for], or in the inner one that follows a directive. *)
Inductive GenMode : Type := ScanningDefault | AwaitingLanguageValue.

Definition is_directive (t : Token) : bool :=
  isinstance t Keyword
  && (String.eqb (tok_text t) "\include" || String.eqb (tok_text t) "\language").

(** [t[:-3] if t.endswith('.ly') else t[:]] *)
Definition language_candidate (t : Token) : string :=
  if Py.endswith (tok_text t) ".ly"
  then Py.drop_last 3 (tok_text t)
  else tok_text t.

(** The tokens the inner loop yields and passes over: [Space] tokens and
    the quote mark. *)
Definition skipped (t : Token) : bool :=
  isinstance t Space || String.eqb (tok_text t) quote.

(** What one token of the source makes the generator do: the token it
    yields, if any, the place where it stands next and the language of the
    iterator at that moment.  The generator is suspended at its [yield], so
    the language returned is the one [read] sees for the yielded token. *)
Definition tokens_step (m : GenMode) (lang : option string) (t : Token)
  : option Token * GenMode * option string :=
  match m with
  | ScanningDefault =>
      (Some t,
       if is_directive t then AwaitingLanguageValue else ScanningDefault,
       lang)
  | AwaitingLanguageValue =>
      if negb (isinstance t Space) && negb (String.eqb (tok_text t) quote)
      then
        let name := language_candidate t in
        let '(lang', ok) := setLanguage lang name in
        if ok
        then (Some (new_LanguageName name (tok_pos t)),
              ScanningDefault, lang')
        else (None, ScanningDefault, lang')
      else (Some t, AwaitingLanguageValue, lang)
  end.

(** The tokens yielded over a source, each with the language the iterator
    has when it is yielded. *)
Fixpoint tokens (m : GenMode) (lang : option string) (src : list Token)
  : list (Token * option string) :=
  match src with
  | [] => []
  | t :: src' =>
      let '(y, m', lang') := tokens_step m lang t in
      match y with
      | Some x => (x, lang') :: tokens m' lang' src'
      | None => tokens m' lang' src'
      end
  end.

(** The language of the iterator once the source is exhausted. *)
Fixpoint tokens_language (m : GenMode) (lang : option string)
    (src : list Token) : option string :=
  match src with
  | [] => lang
  | t :: src' =>
      let '(_, m', lang') := tokens_step m lang t in
      tokens_language m' lang' src'
  end.

(** The place where the generator stands once the source is exhausted. *)
Fixpoint tokens_mode (m : GenMode) (lang : option string)
    (src : list Token) : GenMode :=
  match src with
  | [] => m
  | t :: src' =>
      let '(_, m', lang') := tokens_step m lang t in
      tokens_mode m' lang' src'
  end.

Definition PitchIterator_tokens (self : PitchIterator)
  : list (Token * option string) :=
  tokens ScanningDefault (language self) (source self).

(** [PitchIterator.read], for the language the iterator has. *)
Definition PitchIterator_read (lang : option string) (token : Token)
  : result (option (Z * Q)) :=
  match lang with
  | Some l => read_in l (tok_text token)
  | None => Raise AttributeError
  end.

(** *** The generator [pitches] *)

Inductive pyslice : Type := Slice (start stop : Z).

(** A [Pitch] with the attributes [pitches] adds to it. *)
Record ScannedPitch : Type := mkScanned {
  pitch : Pitch;
  noteToken : Token;
  origOctave : Z;
  octaveSlice : pyslice;
  octaveCheck : option Z;
  origOctaveCheck : option Z;
  octaveCheckSlice : option pyslice
}.

Inductive Item : Type :=
| YToken (t : Token)
| YPitch (p : ScannedPitch).

(** Lines 281 to 289: the pitch made from a decoded note token. *)
Definition new_scanned (p : Z * Q) (t : Token) : ScannedPitch :=
  mkScanned (mkPitch (fst p) (snd p) 0) t 0
            (Slice (tok_end t) (tok_end t)) None None None.

(** Lines 294 and 295 *)
Definition with_octave (p : ScannedPitch) (t : Token) : ScannedPitch :=
  let n := octaveToNum (tok_text t) in
  mkScanned (set_octave (pitch p) n) (noteToken p) n
            (Slice (tok_pos t) (tok_end t))
            (octaveCheck p) (origOctaveCheck p) (octaveCheckSlice p).

(** Lines 297 and 298 *)
Definition with_octaveCheck (p : ScannedPitch) (t : Token) : ScannedPitch :=
  let n := octaveToNum (tok_text t) in
  mkScanned (pitch p) (noteToken p) (origOctave p) (octaveSlice p)
            (Some n) (Some n) (Some (Slice (tok_pos t) (tok_end t))).

(** Where [pitches] stands between two tokens: in the outer [for], or in
    the inner one with the pitch under construction and the last token the
    inner [for] has bound to [t] ([None] as long as it has bound none). *)
Inductive PState : Type :=
| Scanning
| Collecting (p : ScannedPitch) (last : option (Token * option string)).

(** One pass of [while isinstance(t, Note)] for a token [t]: a note that is
    decoded opens a pitch; a note that is not leaves the loop by [break], which
    skips the [else] branch; any other token takes the [else] branch and
    is yielded. *)
Definition examine (t : Token) (lang : option string)
  : result (list Item * PState) :=
  if isinstance t Note
  then p <- PitchIterator_read lang t ;;
       match p with
       | Some na => Ok ([], Collecting (new_scanned na t) None)
       | None => Ok ([], Scanning)
       end
  else Ok ([YToken t], Scanning).

(** The items yielded before a step ends, with the next state or the
    exception that ends the generator. *)
Definition after_yield (out : list Item) (r : result (list Item * PState))
  : list Item * result PState :=
  match r with
  | Ok (out', st) => ((out ++ out')%list, Ok st)
  | Raise e => (out, Raise e)
  end.

(** What one token of [tokens] makes [pitches] do. *)
Definition pitches_step (st : PState) (tl : Token * option string)
  : list Item * result PState :=
  let '(t, lang) := tl in
  match st with
  | Scanning => after_yield [] (examine t lang)
  | Collecting p _ =>
      if isinstance t Octave
      then ([], Ok (Collecting (with_octave p t) (Some tl)))
      else if isinstance t OctaveCheck
      then after_yield [YPitch (with_octaveCheck p t)] (examine t lang)
      else if negb (isinstance t Space || isinstance t Accidental)
      then after_yield [YPitch p] (examine t lang)
      else ([], Ok (Collecting p (Some tl)))
  end.

(** The end of the tokens.  In the inner [for] the pitch is yielded; if the
    loop has bound a token, the [while] examines that token once more. *)
Definition pitches_finish (st : PState) : list Item * option exn :=
  match st with
  | Scanning => ([], None)
  | Collecting p None => ([YPitch p], None)
  | Collecting p (Some (t, lang)) =>
      match examine t lang with
      | Ok (out, Collecting p' _) => ((YPitch p :: out ++ [YPitch p'])%list, None)
      | Ok (out, Scanning) => (YPitch p :: out, None)
      | Raise e => ([YPitch p], Some e)
      end
  end.

(** The items [pitches] yields, and the exception that ends it if any. *)
Fixpoint pitches_from (st : PState) (toks : list (Token * option string))
  : list Item * option exn :=
  match toks with
  | [] => pitches_finish st
  | tl :: toks' =>
      match pitches_step st tl with
      | (out, Ok st') =>
          let '(ys, e) := pitches_from st' toks' in ((out ++ ys)%list, e)
      | (out, Raise e) => (out, Some e)
      end
  end.

Definition PitchIterator_pitches (self : PitchIterator)
  : list Item * option exn :=
  pitches_from Scanning (PitchIterator_tokens self).

(** [pitches] over the first tokens of a stream: the items yielded by the
    time the generator asks for the token that follows them, and the state
    it is in then, or the exception that has ended it. *)
Fixpoint pitches_run (st : PState) (toks : list (Token * option string))
  : list Item * result PState :=
  match toks with
  | [] => ([], Ok st)
  | tl :: toks' =>
      match pitches_step st tl with
      | (out, Ok st') =>
          let '(ys, r) := pitches_run st' toks' in ((out ++ ys)%list, r)
      | (out, Raise e) => (out, Raise e)
      end
  end.

(** *** Write-back *)

(** Modelled from the spec: the document of [ly.document], which is not
    part of this module.  Section 6 has it replace and delete the text of a
    range in place; [write] reaches it through [document[key] = text] and
    [del document[key]] only, so a document is the list of the calls it has
    received, the latest last. *)
Inductive DocCall : Type :=
| SetItem (key : option pyslice) (text : string)
| DelItem (key : option pyslice).

Definition Document : Type := list DocCall.

(** [language or self.language] *)
Definition language_or (lang : option string) (self : PitchIterator)
  : result string :=
  let own := match language self with
             | Some l => Ok l
             | None => Raise AttributeError
             end in
  match lang with
  | Some l => if Py.truthy_str l then Ok l else own
  | None => own
  end.

(** [write]: the writer of the target language encodes the pitch name
    first ([write_in]); an exception leaves the method there.  Then come the
    three edits, each under its own test. *)
Definition write (self : PitchIterator) (p : ScannedPitch)
    (document : Document) (language : option string)
  : result unit * Document :=
  match (l <- language_or language self ;;
         write_in l (note (pitch p)) (alter (pitch p))) with
  | Raise e => (Raise e, document)
  | Ok name =>
      let document :=
        if negb (String.eqb name (tok_text (noteToken p)))
        then (document ++ [SetItem (Some (Slice (tok_pos (noteToken p))
                                                (tok_end (noteToken p)))) name])%list
        else document in
      let document :=
        if negb (octave (pitch p) =? origOctave p)
        then (document ++ [SetItem (Some (octaveSlice p))
                                   (octaveToString (octave (pitch p)))])%list
        else document in
      let document :=
        match origOctaveCheck p with
        | Some _ =>
            match octaveCheck p with
            | None => (document ++ [DelItem (octaveCheckSlice p)])%list
            | Some c =>
                (document ++ [SetItem (octaveCheckSlice p)
                                      ("=" ++ octaveToString c)%string])%list
            end
        | None => document
        end in
      (Ok tt, document)
  end.


(** ** The replacement rule in the words of the specification *)

(** "Replacement pairs are checked in order, first match wins, at most one
    substitution applied": the first pair whose first component starts
    [text] is looked for, and it alone is applied. *)
Definition rewrite_first (pairs : list (string * string)) (text : string)
  : string :=
  match find (fun p => Py.startswith text (fst p)) pairs with
  | Some (a, b) => b ++ Py.drop (String.length a) text
  | None => text
  end.

Definition swap (p : string * string) : string * string := (snd p, fst p).

(** Neither string starts the other. *)
Definition incomparable (a b : string) : bool :=
  negb (Py.startswith a b) && negb (Py.startswith b a).

(** No canonical prefix of a pair is comparable with the alternate prefix of
    a later pair: what the reader's loop without [break] relies on. *)
Fixpoint separated (pairs : list (string * string)) : bool :=
  match pairs with
  | [] => true
  | (s, _) :: rest =>
      forallb (fun p => incomparable s (snd p)) rest && separated rest
  end.

(** ** Finite checks over the table *)

Definition notes_range : list Z := [0; 1; 2; 3; 4; 5; 6].
Definition accs_range : list Z := [0; 1; 2; 3; 4; 5; 6; 7; 8].

(** Encoding note [n] with the accidental of index [i] and decoding the
    spelling gives [n] and [(i - 4) / 4] back, unless the slot is empty. *)
Definition roundtrip_at (L : string) (info : LanguageInfo) (n i : Z) : bool :=
  match Py.getitem (info_accs info) i with
  | Ok acc =>
      if Py.truthy_str acc || (i =? 4)
      then match write_in L n (Qmake (i - 4) 4) with
           | Ok s =>
               match read_in L s with
               | Ok (Some (n', a')) => (n' =? n) && Qeq_bool a' (Qmake (i - 4) 4)
               | _ => false
               end
           | Raise _ => false
           end
      else true
  | Raise _ => false
  end.

Definition roundtrip_table : bool :=
  forallb (fun e =>
    forallb (fun n =>
      forallb (fun i => roundtrip_at (fst e) (snd e) n i) accs_range)
      notes_range)
    pitchInfo.

(** ** Invariants of the scanner *)

(** The language is set, to a key of the table. *)
Definition registered (lang : option string) : bool :=
  match lang with
  | Some L => has_key pitchInfo L
  | None => false
  end.

(** A pitch as the scanner leaves it: the octave and the octave check are
    the original ones, and there is a span for the check exactly when there
    is a check. *)
Definition untouched (p : ScannedPitch) : Prop :=
  octave (pitch p) = origOctave p
  /\ octaveCheck p = origOctaveCheck p
  /\ (origOctaveCheck p = None <-> octaveCheckSlice p = None).

Definition item_untouched (x : Item) : Prop :=
  match x with
  | YToken _ => True
  | YPitch p => untouched p
  end.

Definition state_ok (st : PState) : Prop :=
  match st with
  | Scanning => True
  | Collecting p last =>
      untouched p
      /\ match last with
         | Some (_, lang) => registered lang = true
         | None => True
         end
  end.

(** A property of the pitches among the items, and of the pitch a state
    holds. *)
Definition item_holds (P : ScannedPitch -> Prop) (x : Item) : Prop :=
  match x with
  | YToken _ => True
  | YPitch p => P p
  end.

Definition state_holds (P : ScannedPitch -> Prop) (st : PState) : Prop :=
  match st with
  | Scanning => True
  | Collecting p last =>
      P p
      /\ match last with
         | Some (_, lang) => registered lang = true
         | None => True
         end
  end.


(** The calls [write] makes, in order. *)
Definition write_calls (p : ScannedPitch) (name : string) : list DocCall :=
  ((if negb (String.eqb name (tok_text (noteToken p)))
    then [SetItem (Some (Slice (tok_pos (noteToken p))
                               (tok_end (noteToken p)))) name]
    else [])
   ++ (if negb (octave (pitch p) =? origOctave p)
       then [SetItem (Some (octaveSlice p)) (octaveToString (octave (pitch p)))]
       else [])
   ++ match origOctaveCheck p, octaveCheck p with
      | Some _, None => [DelItem (octaveCheckSlice p)]
      | Some _, Some c =>
          [SetItem (octaveCheckSlice p) ("=" ++ octaveToString c)%string]
      | None, _ => []
      end)%list.

(** ** Sources used as examples *)

Definition note_c : Token := mkToken Note "c" 0 1.
Definition check_1 : Token := mkToken OctaveCheck "='" 1 3.
Definition note_do : Token := mkToken Note "do" 0 2.
Definition kw_language : Token := mkToken Keyword "\language" 0 9.
Definition space_9 : Token := mkToken Space " " 9 10.
Definition name_klingon : Token := mkToken Other "klingon" 10 17.
Definition note_h : Token := mkToken Note "h" 18 19.

(** [c=' \language klingon es], and [\include \language klingon es]. *)
Definition kw_language_3 : Token := mkToken Keyword "\language" 3 12.
Definition space_12 : Token := mkToken Space " " 12 13.
Definition name_klingon_13 : Token := mkToken Other "klingon" 13 20.
Definition note_es_21 : Token := mkToken Note "es" 21 23.

Definition kw_include_0 : Token := mkToken Keyword "\include" 0 8.
Definition space_8 : Token := mkToken Space " " 8 9.
Definition kw_language_9 : Token := mkToken Keyword "\language" 9 18.
Definition space_18 : Token := mkToken Space " " 18 19.
Definition name_klingon_19 : Token := mkToken Other "klingon" 19 26.
Definition space_26 : Token := mkToken Space " " 26 27.
Definition note_es_27 : Token := mkToken Note "es" 27 29.

(** The pitch scanned from [c] followed by the octave check [='], and a
    quarter-sharp c. *)
Definition c_checked : ScannedPitch :=
  with_octaveCheck (new_scanned (0, 0%Q) note_c) check_1.
Definition c_quarter_sharp : ScannedPitch :=
  new_scanned (0, 1 # 4) note_c.

(** ** The rest of the module *)

(** [Pitch.c1], [Pitch.c0] and [Pitch.copy]. *)
Definition Pitch_c1 : Pitch := mkPitch 0 0 1.
Definition Pitch_c0 : Pitch := mkPitch 0 0 0.
Definition Pitch_copy (self : Pitch) : Pitch :=
  mkPitch (note self) (alter self) (octave self).

(** [Pitch.output]: the name in the language, then the octave marks. *)
Definition Pitch_output (self : Pitch) (language : string) : result string :=
  name <- write_in language (note self) (alter self) ;;
  Ok (name ++ octaveToString (octave self)).

(** [Pitch.__repr__], which calls [output] with its default language. *)
Definition Pitch_repr (self : Pitch) : result string :=
  s <- Pitch_output self "nederlands" ;; Ok ("<Pitch " ++ s ++ ">").

(** [d[k] = v] on a dictionary: the value of an existing key is replaced
    in place, a new key comes last. *)
Fixpoint dict_set {A : Type} (d : list (string * A)) (k : string) (v : A)
  : list (string * A) :=
  match d with
  | [] => [(k, v)]
  | (k', v') :: d' =>
      if String.eqb k' k then (k, v) :: d' else (k', v') :: dict_set d' k v
  end.

(** [pitchReader] and [pitchWriter] with the module dictionaries
    [_pitchReaders] and [_pitchWriters] as explicit state: the cached object
    is returned if there is one; otherwise [pitchInfo[language]] is looked up
    (its [KeyError] leaves the dictionary as it is), the object is built,
    stored and returned. *)
Definition pitchReader_cached (readers : list (string * PitchReader))
    (language : string)
  : result PitchReader * list (string * PitchReader) :=
  match lookup readers language with
  | Some r => (Ok r, readers)
  | None =>
      match dict_get pitchInfo language with
      | Ok info =>
          let res := mkReader (info_names info) (info_accs info)
                              (info_replacements info) in
          (Ok res, dict_set readers language res)
      | Raise e => (Raise e, readers)
      end
  end.

Definition pitchWriter_cached (writers : list (string * PitchWriter))
    (language : string)
  : result PitchWriter * list (string * PitchWriter) :=
  match lookup writers language with
  | Some w => (Ok w, writers)
  | None =>
      match dict_get pitchInfo language with
      | Ok info =>
          let res := mkWriter language (info_names info) (info_accs info)
                              (info_replacements info) in
          (Ok res, dict_set writers language res)
      | Raise e => (Raise e, writers)
      end
  end.

(** [PitchIterator.position] *)
Definition position (t : Item) : Z :=
  match t with
  | YPitch p => tok_pos (noteToken p)
  | YToken t => tok_pos t
  end.

(** ** Notions used to state the further properties *)

(** [l1] is [l2] with some elements left out. *)
Inductive subseq {A : Type} : list A -> list A -> Prop :=
| subseq_nil : subseq [] []
| subseq_skip (x : A) (l1 l2 : list A) : subseq l1 l2 -> subseq l1 (x :: l2)
| subseq_cons (x : A) (l1 l2 : list A) :
    subseq l1 l2 -> subseq (x :: l1) (x :: l2).

(** A string without octave marks. *)
Definition no_marks (s : string) : bool :=
  (Py.count "'"%char s =? 0) && (Py.count ","%char s =? 0).

Definition info_no_marks (info : LanguageInfo) : bool :=
  forallb no_marks (info_names info)
  && forallb no_marks (info_accs info)
  && forallb (fun p => no_marks (snd p)) (info_replacements info).

(** The pitches among the items, and the pitch a state holds. *)
Fixpoint pitches_of (out : list Item) : list ScannedPitch :=
  match out with
  | [] => []
  | YPitch p :: out' => p :: pitches_of out'
  | YToken _ :: out' => pitches_of out'
  end.

Definition held (st : PState) : list ScannedPitch :=
  match st with
  | Scanning => []
  | Collecting p _ => [p]
  end.

(** What a pitch was decoded from and what it was decoded to: its note
    token, with its note and alteration. *)
Definition decoding (p : ScannedPitch) : Token * (Z * Q) :=
  (noteToken p, (note (pitch p), alter (pitch p))).

(** What the table of language [L] makes of a token: a note token whose
    text decodes, with the pair it decodes to; nothing for a note token that
    does not decode, and nothing for a token of another class. *)
Definition decoded_in (L : string) (t : Token) : list (Token * (Z * Q)) :=
  if isinstance t Note
  then match read_in L (tok_text t) with
       | Ok (Some na) => [(t, na)]
       | _ => []
       end
  else [].

(** The positions of the tokens a state of [pitches] still holds. *)
Definition pending (st : PState) : list Z :=
  match st with
  | Scanning => []
  | Collecting p None => [tok_pos (noteToken p)]
  | Collecting p (Some (t, _)) => [tok_pos (noteToken p); tok_pos t]
  end.

(** The shape [pitchReader] and [pitchWriter] share: return what the
    dictionary holds for the key, or else build, store and return. *)
Definition memo {A : Type} (build : string -> result A)
    (cache : list (string * A)) (k : string)
  : result A * list (string * A) :=
  match lookup cache k with
  | Some v => (Ok v, cache)
  | None =>
      match build k with
      | Ok v => (Ok v, dict_set cache k v)
      | Raise e => (Raise e, cache)
      end
  end.

(** Every cached object is the one the function builds for its key. *)
Definition cache_ok {A : Type} (build : string -> result A)
    (cache : list (string * A)) : Prop :=
  forall k v, lookup cache k = Some v -> build k = Ok v.

Definition readers_ok (readers : list (string * PitchReader)) : Prop :=
  cache_ok pitchReader readers.

Definition writers_ok (writers : list (string * PitchWriter)) : Prop :=
  cache_ok pitchWriter writers.

(** * Properties *)

(** ** Octave arithmetic *)

Lemma makeAbsolute_note (p prev : Pitch) : note (makeAbsolute p prev) = note p.
Proof. reflexivity. Qed.

(** With both notes in 0..6 the octave moves by at most one step away from
    that of the previous pitch. *)
Lemma makeAbsolute_nearest (p prev : Pitch) :
  0 <= note p <= 6 -> 0 <= note prev <= 6 ->
  octave p + octave prev - 1 <= octave (makeAbsolute p prev)
    <= octave p + octave prev + 1.
Proof.
  intros Hp Hq. unfold makeAbsolute, set_octave; simpl.
  assert (-1 <= (note p - note prev + 3) / 7 <= 1).
  { split.
    - apply Z.div_le_lower_bound; lia.
    - apply Z.lt_succ_r, Z.div_lt_upper_bound; lia. }
  lia.
Qed.

(** C8.  [makeAbsolute] adds [prev.octave - floor((p.note - prev.note + 3) / 7)]
    to the octave of [p], the quotient being the floored one (it is the
    [q] with [7 * q <= d < 7 * q + 7]), and [makeRelative] with the same
    [prev] gives [p] back, octave included. *)
Theorem makeRelative_makeAbsolute (p prev : Pitch) :
  let d := note p - note prev + 3 in
  octave (makeAbsolute p prev) = octave p + (octave prev - d / 7)
  /\ 7 * (d / 7) <= d < 7 * (d / 7) + 7
  /\ octave (makeRelative (makeAbsolute p prev) prev) = octave p
  /\ makeRelative (makeAbsolute p prev) prev = p.
Proof.
  intro d. split; [reflexivity|]. split.
  - pose proof (Z.mul_div_le d 7 eq_refl).
    pose proof (Z.mul_succ_div_gt d 7 eq_refl). lia.
  - destruct p as [n a o]. unfold makeRelative, makeAbsolute, set_octave; simpl.
    split; [lia | f_equal; lia].
Qed.

(** Floored and truncated division differ here: from b down to c. *)
Example makeAbsolute_floored :
  octave (makeAbsolute (mkPitch 0 0 0) (mkPitch 6 0 0)) = 1
  /\ Z.quot (0 - 6 + 3) 7 = 0.
Proof. split; reflexivity. Qed.

Lemma octaveToNum_octaveToString_examples :
  octaveToNum (octaveToString 3) = 3 /\ octaveToNum (octaveToString (-2)) = -2
  /\ octaveToString 0 = "".
Proof. repeat split; reflexivity. Qed.

(** ** Decoding "es" in nederlands *)

(** C1, as stated, fails: the spelling does not decode to note 5. *)
Lemma read_es_nederlands_not_a :
  ~ (exists a : Q, read_in "nederlands" "es" = Ok (Some (5, a))
                   /\ Qeq a (-1 # 2)).
Proof.
  intros [a [H _]]. vm_compute in H. discriminate H.
Qed.

(** C1, amended.  In nederlands, "es" is first rewritten to "ees" by the pair
    [(ees, es)] and then decodes to note 2 (the base note e) with
    alteration -1/2, the accidental [es] of index 2. *)
Theorem read_es_nederlands :
  reader_replace (info_replacements nederlands_info) "es" = "ees"
  /\ read_in "nederlands" "es" = Ok (Some (2, -1 # 2))
  /\ Py.getitem (info_names nederlands_info) 2 = Ok "e"
  /\ Py.getitem (info_accs nederlands_info) 2 = Ok "es".
Proof. repeat split; reflexivity. Qed.

(** ** The table *)

Lemma lookup_In {A : Type} (d : list (string * A)) (k : string) (v : A) :
  lookup d k = Some v -> In (k, v) d.
Proof.
  induction d as [|[k' v'] d IH]; simpl; [discriminate|].
  destruct (String.eqb_spec k' k) as [->|_].
  - intros [= ->]. now left.
  - intro H. right. auto.
Qed.

Lemma has_key_lookup {A : Type} (d : list (string * A)) (k : string) :
  has_key d k = true <-> exists v, lookup d k = Some v.
Proof.
  unfold has_key, keys. induction d as [|[k' v'] d IH]; simpl.
  - split; [discriminate | intros [v H]; discriminate].
  - rewrite (String.eqb_sym k k'). destruct (String.eqb k' k); simpl.
    + split; eauto.
    + exact IH.
Qed.

(** Every entry has seven names and nine accidentals, the natural one
    being empty. *)
Lemma pitchInfo_shape (L : string) (info : LanguageInfo) :
  lookup pitchInfo L = Some info ->
  List.length (info_names info) = 7%nat
  /\ List.length (info_accs info) = 9%nat
  /\ Py.getitem (info_accs info) 4 = Ok "".
Proof.
  intro H. apply lookup_In in H. simpl in H.
  repeat (destruct H as [H|H]; [inversion H; subst; repeat split; reflexivity|]).
  contradiction.
Qed.

(** ** Indexing *)

Lemma getitem_raises {A : Type} (l : list A) (i : Z) (e : exn) :
  Py.getitem l i = Raise e -> e = IndexError.
Proof.
  unfold Py.getitem.
  destruct (_ && _); [destruct (nth_error _ _)|]; congruence.
Qed.

Lemma getitem_in_range {A : Type} (l : list A) (i : Z) :
  0 <= i < Z.of_nat (List.length l) -> exists a, Py.getitem l i = Ok a.
Proof.
  intro H. unfold Py.getitem.
  destruct (Z.ltb_spec i 0); [lia|].
  destruct (Z.leb_spec 0 i); [|lia].
  destruct (Z.ltb_spec i (Z.of_nat (List.length l))); [|lia]. simpl.
  destruct (nth_error l (Z.to_nat i)) eqn:E; [eauto|].
  apply nth_error_None in E. lia.
Qed.

(** ** Alterations and their table index *)

Lemma int_of_integer (x : Q) (i : Z) : Qeq x (inject_Z i) -> Py.int x = i.
Proof.
  unfold Qeq, Py.int, inject_Z; simpl. intro H.
  rewrite Z.mul_1_r in H. rewrite H. apply Z.quot_mul. discriminate.
Qed.

Lemma truthy_num_false (a : Q) : Qeq a 0 -> Py.truthy_num a = false.
Proof.
  intro H. unfold Py.truthy_num. apply Qeq_bool_iff in H. now rewrite H.
Qed.

Lemma truthy_num_true (a : Q) : ~ Qeq a 0 -> Py.truthy_num a = true.
Proof.
  intro H. unfold Py.truthy_num.
  destruct (Qeq_bool a 0) eqn:E; [|reflexivity].
  apply Qeq_bool_iff in E. contradiction.
Qed.

Lemma alter_of_index (a : Q) (i : Z) :
  Qeq (a * 4 + 4) (inject_Z i) -> Qeq a ((i - 4) # 4).
Proof.
  destruct a as [n d].
  unfold Qeq, Qplus, Qmult, inject_Z; cbn [Qnum Qden].
  rewrite ?Pos2Z.inj_mul. lia.
Qed.

Lemma alter_zero_index (a : Q) (i : Z) :
  Qeq (a * 4 + 4) (inject_Z i) -> (Qeq a 0 <-> i = 4).
Proof.
  destruct a as [n d].
  unfold Qeq, Qplus, Qmult, inject_Z; cbn [Qnum Qden].
  rewrite ?Pos2Z.inj_mul. nia.
Qed.

(** The writer only looks at the truth value of [alter] and at its index. *)
Lemma PitchWriter_call_index (w : PitchWriter) (n : Z) (a : Q) (i : Z) :
  Qeq (a * 4 + 4) (inject_Z i) ->
  PitchWriter_call w n a =
    (name <- Py.getitem (w_names w) n ;;
     name <- (if negb (i =? 4)
              then acc <- Py.getitem (w_accs w) i ;;
                   if Py.truthy_str acc
                   then Ok (name ++ acc)
                   else Raise (PitchNameNotAvailable (w_language w))
              else Ok name) ;;
     Ok (writer_replace (w_replacements w) name)).
Proof.
  intro H. unfold PitchWriter_call.
  rewrite (int_of_integer _ _ H).
  pose proof (alter_zero_index a i H) as Hz.
  destruct (Z.eqb_spec i 4) as [E|E]; simpl.
  - rewrite truthy_num_false by tauto. reflexivity.
  - rewrite truthy_num_true by tauto. reflexivity.
Qed.

Lemma write_in_index (L : string) (n : Z) (a b : Q) (i : Z) :
  Qeq (a * 4 + 4) (inject_Z i) -> Qeq (b * 4 + 4) (inject_Z i) ->
  write_in L n a = write_in L n b.
Proof.
  intros Ha Hb. unfold write_in.
  destruct (pitchWriter L) as [w|e]; simpl; [|reflexivity].
  now rewrite (PitchWriter_call_index w n a i Ha),
              (PitchWriter_call_index w n b i Hb).
Qed.

Lemma index_of_quarter (i : Z) : Qeq (((i - 4) # 4) * 4 + 4) (inject_Z i).
Proof.
  unfold Qeq, Qplus, Qmult, inject_Z; cbn [Qnum Qden]. lia.
Qed.

Lemma pitchWriter_registered (L : string) (info : LanguageInfo) :
  lookup pitchInfo L = Some info ->
  pitchWriter L = Ok (mkWriter L (info_names info) (info_accs info)
                        (info_replacements info)).
Proof. intro H. unfold pitchWriter, dict_get. now rewrite H. Qed.

Lemma pitchReader_registered (L : string) (info : LanguageInfo) :
  lookup pitchInfo L = Some info ->
  pitchReader L = Ok (mkReader (info_names info) (info_accs info)
                        (info_replacements info)).
Proof. intro H. unfold pitchReader, dict_get. now rewrite H. Qed.

(** ** Encoding failures *)

(** What the writer does once the note name is found. *)
Lemma PitchWriter_call_named (w : PitchWriter) (n : Z) (a : Q) (name : string) :
  Py.getitem (w_names w) n = Ok name ->
  (~ Qeq a 0 ->
     (PitchWriter_call w n a = Raise (PitchNameNotAvailable (w_language w))
      <-> Py.getitem (w_accs w) (Py.int (a * 4 + 4)) = Ok ""))
  /\ (Qeq a 0 ->
        PitchWriter_call w n a = Ok (writer_replace (w_replacements w) name)).
Proof.
  intro Hname. unfold PitchWriter_call. rewrite Hname. simpl. split.
  - intro Hz. rewrite (truthy_num_true a Hz). simpl.
    destruct (Py.getitem (w_accs w) _) as [acc|e] eqn:Hacc; simpl.
    + unfold Py.truthy_str. destruct (String.eqb_spec acc "") as [->|Hne]; simpl.
      * split; reflexivity.
      * split; [discriminate | congruence].
    + apply getitem_raises in Hacc. subst e. split; discriminate.
  - intro Hz. rewrite (truthy_num_false a Hz). reflexivity.
Qed.

Lemma registered_name (L : string) (info : LanguageInfo) (n : Z) :
  lookup pitchInfo L = Some info -> 0 <= n <= 6 ->
  exists name, Py.getitem (info_names info) n = Ok name.
Proof.
  intros HL Hn. destruct (pitchInfo_shape L info HL) as [Hnames _].
  apply getitem_in_range. lia.
Qed.

(** C6.  In a registered language [L] and for a note in 0..6: when the
    alteration [a] is not 0, encoding raises [PitchNameNotAvailable L] exactly
    when the entry of the accidental table at the index of [a], which the
    code computes as [int(a*4+4)], is the empty string; when [a] is 0,
    encoding succeeds, with the same result whatever the accidental table
    holds. *)
Theorem write_unavailable_iff (L : string) (info : LanguageInfo)
    (n : Z) (a : Q) :
  lookup pitchInfo L = Some info ->
  0 <= n <= 6 ->
  (~ Qeq a 0 ->
     (write_in L n a = Raise (PitchNameNotAvailable L)
      <-> Py.getitem (info_accs info) (Py.int (a * 4 + 4)) = Ok ""))
  /\ (Qeq a 0 ->
        exists s, write_in L n a = Ok s
          /\ forall accs,
               PitchWriter_call
                 (mkWriter L (info_names info) accs (info_replacements info))
                 n a = Ok s).
Proof.
  intros HL Hn.
  destruct (registered_name L info n HL Hn) as [name Hname].
  unfold write_in. rewrite (pitchWriter_registered L info HL). simpl.
  split.
  - apply (PitchWriter_call_named
             (mkWriter L (info_names info) (info_accs info)
                (info_replacements info)) n a name Hname).
  - intro Hz. exists (writer_replace (info_replacements info) name). split.
    + apply (PitchWriter_call_named
               (mkWriter L (info_names info) (info_accs info)
                  (info_replacements info)) n a name Hname). exact Hz.
    + intros accs.
      apply (PitchWriter_call_named
               (mkWriter L (info_names info) accs (info_replacements info))
               n a name Hname). exact Hz.
Qed.

Lemma write_unavailable_iff_witness :
  write_in "espanol" 0 (1 # 4) = Raise (PitchNameNotAvailable "espanol").
Proof.
  apply (proj1 (write_unavailable_iff "espanol" espanol_info 0 (1 # 4)
                  eq_refl ltac:(lia))).
  - intro H. discriminate H.
  - reflexivity.
Defined.

(** The two scenarios of section 8 that succeed. *)
Example write_cis_cqs :
  write_in "nederlands" 0 (1 # 2) = Ok "cis"
  /\ write_in "english" 0 (1 # 4) = Ok "cqs".
Proof. split; reflexivity. Qed.

(** ** Round trip *)

Lemma roundtrip_table_holds : roundtrip_table = true.
Proof. vm_compute. reflexivity. Qed.

Lemma In_notes_range (n : Z) : 0 <= n <= 6 -> In n notes_range.
Proof. intro H. unfold notes_range. simpl. lia. Qed.

Lemma In_accs_range (i : Z) : 0 <= i <= 8 -> In i accs_range.
Proof. intro H. unfold accs_range. simpl. lia. Qed.

(** C2.  In a registered language, for a note in 0..6 and an alteration [a]
    that is a multiple of 1/4 in [-1, 1] (its index [a*4+4] is a slot [i] in
    0..8) whose slot is not empty, or which is 0, decoding the encoded
    spelling gives the note and the alteration back. *)
Theorem read_write_roundtrip (L : string) (info : LanguageInfo)
    (n i : Z) (a : Q) :
  lookup pitchInfo L = Some info ->
  0 <= n <= 6 -> 0 <= i <= 8 ->
  Qeq (a * 4 + 4) (inject_Z i) ->
  Py.getitem (info_accs info) i <> Ok "" \/ Qeq a 0 ->
  exists s a',
    write_in L n a = Ok s
    /\ read_in L s = Ok (Some (n, a'))
    /\ Qeq a' a.
Proof.
  intros HL Hn Hi Ha Hslot.
  pose proof roundtrip_table_holds as T. unfold roundtrip_table in T.
  rewrite forallb_forall in T. specialize (T (L, info) (lookup_In _ _ _ HL)).
  rewrite forallb_forall in T. specialize (T n (In_notes_range n Hn)).
  rewrite forallb_forall in T. specialize (T i (In_accs_range i Hi)).
  unfold roundtrip_at in T. simpl fst in T. simpl snd in T.
  rewrite (write_in_index L n a ((i - 4) # 4) i Ha (index_of_quarter i)).
  destruct (Py.getitem (info_accs info) i) as [acc|e]; [|discriminate T].
  assert (Py.truthy_str acc || (i =? 4) = true) as C.
  { destruct Hslot as [Hne|Hz].
    - unfold Py.truthy_str.
      destruct (String.eqb_spec acc "") as [->|_]; [now elim Hne | reflexivity].
    - apply (alter_zero_index a i Ha) in Hz. subst i.
      apply orb_true_r. }
  rewrite C in T.
  destruct (write_in L n ((i - 4) # 4)) as [s|e]; [|discriminate T].
  destruct (read_in L s) as [[[n' a']|]|e] eqn:R; try discriminate T.
  apply andb_true_iff in T. destruct T as [T1 T2].
  apply Z.eqb_eq in T1. subst n'. apply Qeq_bool_iff in T2.
  exists s, a'. split; [reflexivity|]. split; [exact R|].
  apply (Qeq_trans _ _ _ T2). apply Qeq_sym, alter_of_index. exact Ha.
Qed.

Lemma read_write_roundtrip_witness :
  exists s a',
    write_in "deutsch" 6 (-1 # 2) = Ok s
    /\ read_in "deutsch" s = Ok (Some (6, a'))
    /\ Qeq a' (-1 # 2).
Proof.
  apply (read_write_roundtrip "deutsch" deutsch_info 6 2 (-1 # 2)
           eq_refl ltac:(lia) ltac:(lia) eq_refl).
  left. discriminate.
Defined.

(** ** Replacement pairs: first match only *)

Lemma startswith_incomparable (s r : string) :
  incomparable s r = true ->
  forall tail, Py.startswith (s ++ tail) r = false.
Proof.
  unfold incomparable. revert r.
  induction s as [|c s IH]; intros r H tail.
  - destruct r; simpl in H; discriminate H.
  - destruct r as [|d r]; simpl in H; [discriminate H|]. simpl.
    rewrite (Ascii.eqb_sym d c) in H.
    destruct (Ascii.eqb c d); simpl in *; [|reflexivity].
    apply IH. exact H.
Qed.

Lemma reader_replace_untouched (pairs : list (string * string)) (text : string) :
  Forall (fun p => Py.startswith text (snd p) = false) pairs ->
  reader_replace pairs text = text.
Proof.
  induction 1 as [|[s r] pairs H _ IH]; simpl; [reflexivity|].
  simpl in H. rewrite H. exact IH.
Qed.

(** The reader's loop has no [break]; on separated pairs it still applies
    the first matching pair only. *)
Lemma reader_replace_first (pairs : list (string * string)) :
  separated pairs = true ->
  forall text, reader_replace pairs text = rewrite_first (map swap pairs) text.
Proof.
  unfold rewrite_first.
  induction pairs as [|[s r] pairs IH]; intros Hsep text; simpl; [reflexivity|].
  simpl in Hsep. apply andb_true_iff in Hsep. destruct Hsep as [Hs Hrest].
  destruct (Py.startswith text r) eqn:E.
  - apply reader_replace_untouched.
    rewrite forallb_forall in Hs. apply Forall_forall. intros p Hp.
    apply startswith_incomparable. apply Hs. exact Hp.
  - apply IH. exact Hrest.
Qed.

(** The writer's loop, which has the [break]. *)
Lemma writer_replace_first (pairs : list (string * string)) (pitch : string) :
  writer_replace pairs pitch = rewrite_first pairs pitch.
Proof.
  unfold rewrite_first.
  induction pairs as [|[s r] pairs IH]; simpl; [reflexivity|].
  destruct (Py.startswith pitch s); [reflexivity | exact IH].
Qed.

Lemma pitchInfo_separated (L : string) (info : LanguageInfo) :
  lookup pitchInfo L = Some info -> separated (info_replacements info) = true.
Proof.
  intro H. apply lookup_In in H. simpl in H.
  repeat (destruct H as [H|H]; [inversion H; subst; reflexivity|]).
  contradiction.
Qed.

(** On pairs that are not separated the loop without [break] does apply two
    pairs in a row: the property is one of the table, not of the loop. *)
Example reader_replace_twice :
  reader_replace [("b", "a"); ("c", "b")] "a" = "c"
  /\ rewrite_first (map swap [("b", "a"); ("c", "b")]) "a" = "b".
Proof. split; reflexivity. Qed.

(** C7.  In every registered language and for every string, the prefix
    rewrite of the reader and the substitution of the writer each apply the
    first pair, in list order, whose prefix matches, and no other pair. *)
Theorem replacements_first_match_only (L : string) (info : LanguageInfo)
    (text : string) :
  lookup pitchInfo L = Some info ->
  reader_replace (info_replacements info) text
    = rewrite_first (map swap (info_replacements info)) text
  /\ writer_replace (info_replacements info) text
    = rewrite_first (info_replacements info) text.
Proof.
  intro H. split.
  - apply reader_replace_first. exact (pitchInfo_separated L info H).
  - apply writer_replace_first.
Qed.

Lemma replacements_first_match_only_witness :
  reader_replace (info_replacements svenska_info) "bess"
    = rewrite_first (map swap (info_replacements svenska_info)) "bess"
  /\ writer_replace (info_replacements svenska_info) "hessess"
    = rewrite_first (info_replacements svenska_info) "hessess".
Proof.
  split.
  - exact (proj1 (replacements_first_match_only
                    "svenska" svenska_info "bess" eq_refl)).
  - exact (proj2 (replacements_first_match_only
                    "svenska" svenska_info "hessess" eq_refl)).
Defined.

(** ** The generator [tokens] *)

Lemma tokens_step_skipped (lang : option string) (t : Token) :
  skipped t = true ->
  tokens_step AwaitingLanguageValue lang t
    = (Some t, AwaitingLanguageValue, lang).
Proof.
  unfold skipped, tokens_step. intro H.
  destruct (isinstance t Space); simpl in *; [reflexivity|].
  rewrite H. reflexivity.
Qed.

Lemma tokens_step_unresolved (lang : option string) (t : Token) :
  skipped t = false ->
  has_key pitchInfo (language_candidate t) = false ->
  tokens_step AwaitingLanguageValue lang t = (None, ScanningDefault, lang).
Proof.
  unfold skipped, tokens_step, setLanguage. intros H K.
  apply orb_false_iff in H. destruct H as [H1 H2].
  rewrite H1, H2, K. reflexivity.
Qed.

Lemma tokens_step_resolved (lang : option string) (t : Token) :
  skipped t = false ->
  has_key pitchInfo (language_candidate t) = true ->
  tokens_step AwaitingLanguageValue lang t
    = (Some (new_LanguageName (language_candidate t) (tok_pos t)),
       ScanningDefault, Some (language_candidate t)).
Proof.
  unfold skipped, tokens_step, setLanguage. intros H K.
  apply orb_false_iff in H. destruct H as [H1 H2].
  rewrite H1, H2, K. reflexivity.
Qed.

Lemma tokens_awaiting_skipped (lang : option string) (mid rest : list Token) :
  Forall (fun t => skipped t = true) mid ->
  tokens AwaitingLanguageValue lang (mid ++ rest)
    = (map (fun t => (t, lang)) mid
       ++ tokens AwaitingLanguageValue lang rest)%list
  /\ tokens_language AwaitingLanguageValue lang (mid ++ rest)
    = tokens_language AwaitingLanguageValue lang rest.
Proof.
  induction 1 as [|t mid Ht _ IH]; [split; reflexivity|].
  cbn [app tokens tokens_language map].
  rewrite (tokens_step_skipped lang t Ht).
  destruct IH as [IH1 IH2]. rewrite IH1, IH2. split; reflexivity.
Qed.

(** The scan of a source in two parts: the second part is scanned from the
    place and with the language the first part leaves. *)
Lemma tokens_app (a b : list Token) :
  forall (m : GenMode) (lang : option string),
    tokens m lang (a ++ b)
      = (tokens m lang a
         ++ tokens (tokens_mode m lang a) (tokens_language m lang a) b)%list
    /\ tokens_language m lang (a ++ b)
       = tokens_language (tokens_mode m lang a) (tokens_language m lang a) b
    /\ tokens_mode m lang (a ++ b)
       = tokens_mode (tokens_mode m lang a) (tokens_language m lang a) b.
Proof.
  induction a as [|t a IH]; intros m lang; [repeat split; reflexivity|].
  cbn [app tokens tokens_language tokens_mode].
  destruct (tokens_step m lang t) as [[y m'] lang'].
  destruct (IH m' lang') as [E1 [E2 E3]].
  rewrite E1, E2, E3. destruct y; repeat split; reflexivity.
Qed.

Lemma tokens_mode_awaiting_skipped (lang : option string)
    (mid rest : list Token) :
  Forall (fun t => skipped t = true) mid ->
  tokens_mode AwaitingLanguageValue lang (mid ++ rest)
    = tokens_mode AwaitingLanguageValue lang rest.
Proof.
  induction 1 as [|t mid Ht _ IH]; [reflexivity|].
  cbn [app tokens_mode]. rewrite (tokens_step_skipped lang t Ht). exact IH.
Qed.

(** A directive whose candidate does not resolve, scanned from the outer
    loop. *)
Lemma tokens_unresolved (lang : option string) (kw : Token)
    (mid : list Token) (cand : Token) (rest : list Token) :
  is_directive kw = true ->
  Forall (fun t => skipped t = true) mid ->
  skipped cand = false ->
  has_key pitchInfo (language_candidate cand) = false ->
  tokens ScanningDefault lang (kw :: mid ++ cand :: rest)
    = ((kw, lang) :: map (fun t => (t, lang)) mid
       ++ tokens ScanningDefault lang rest)%list
  /\ tokens_language ScanningDefault lang (kw :: mid ++ cand :: rest)
     = tokens_language ScanningDefault lang rest
  /\ tokens_mode ScanningDefault lang (kw :: mid ++ cand :: rest)
     = tokens_mode ScanningDefault lang rest.
Proof.
  intros Hkw Hmid Hcand Hkey.
  cbn [tokens tokens_language tokens_mode tokens_step]. rewrite Hkw.
  destruct (tokens_awaiting_skipped lang mid (cand :: rest) Hmid) as [E1 E2].
  rewrite E1, E2, (tokens_mode_awaiting_skipped lang mid (cand :: rest) Hmid).
  cbn [tokens tokens_language tokens_mode].
  rewrite (tokens_step_unresolved lang cand Hcand Hkey).
  repeat split; reflexivity.
Qed.

(** In the stream [\include \language klingon es] the keyword [\language]
    is followed by a space and by the candidate [klingon], which is not a key
    of the table; yet [klingon] is yielded, by [tokens] and by [pitches].  The
    inner loop that [\include] opens takes the token [\language] for its
    candidate: it consumes it, the name does not resolve, and the outer loop
    goes on with the space, so the keyword opens no inner loop of its own. *)
Lemma directive_after_directive_counterexample :
  let src := [kw_include_0; space_8; kw_language_9; space_18;
              name_klingon_19; space_26; note_es_27] in
  is_directive kw_language_9 = true
  /\ skipped space_18 = true
  /\ skipped name_klingon_19 = false
  /\ has_key pitchInfo (language_candidate name_klingon_19) = false
  /\ In name_klingon_19
        (map fst (PitchIterator_tokens (PitchIterator_init src)))
  /\ In (YToken name_klingon_19)
        (fst (PitchIterator_pitches (PitchIterator_init src)))
  /\ ~ In kw_language_9
        (map fst (PitchIterator_tokens (PitchIterator_init src))).
Proof.
  cbv zeta.
  split; [reflexivity|]. split; [reflexivity|]. split; [reflexivity|].
  split; [reflexivity|].
  split; [vm_compute; tauto|]. split; [vm_compute; tauto|].
  vm_compute. intro H.
  repeat (destruct H as [H|H]; [discriminate H|]). exact H.
Qed.

(** C9.  In any source, take a directive keyword that the outer loop of
    [tokens] meets, that is, one before which the scan of the source stands
    in the outer loop; let it be followed by spaces and quote marks and then
    by a candidate whose name is not a key of the table.  The keyword and the
    skipped tokens are yielded with the language the iterator had before the
    keyword, the candidate is consumed and not yielded, after it the language
    is still that one and the generator is back in the outer loop, and the
    rest of the source is scanned as from the outer loop with that language,
    by [tokens] and so by [pitches]. *)
Theorem unresolved_directive_ignored (lang : option string)
    (pre : list Token) (kw : Token) (mid : list Token) (cand : Token)
    (rest : list Token) :
  tokens_mode ScanningDefault lang pre = ScanningDefault ->
  is_directive kw = true ->
  Forall (fun t => skipped t = true) mid ->
  skipped cand = false ->
  has_key pitchInfo (language_candidate cand) = false ->
  let before := tokens_language ScanningDefault lang pre in
  let src := (pre ++ kw :: mid ++ cand :: rest)%list in
  let passed := ((kw, before) :: map (fun t => (t, before)) mid)%list in
  tokens ScanningDefault lang src
    = (tokens ScanningDefault lang pre
       ++ passed ++ tokens ScanningDefault before rest)%list
  /\ tokens_language ScanningDefault lang (pre ++ kw :: mid ++ [cand])%list
     = before
  /\ tokens_mode ScanningDefault lang (pre ++ kw :: mid ++ [cand])%list
     = ScanningDefault
  /\ tokens_language ScanningDefault lang src
     = tokens_language ScanningDefault before rest
  /\ PitchIterator_pitches (mkIterator src lang)
     = pitches_from Scanning
         (tokens ScanningDefault lang pre
          ++ passed ++ tokens ScanningDefault before rest)%list.
Proof.
  intros Hpre Hkw Hmid Hcand Hkey before src passed.
  destruct (tokens_app pre (kw :: mid ++ cand :: rest) ScanningDefault lang)
    as [A1 [A2 _]].
  destruct (tokens_app pre (kw :: mid ++ [cand]) ScanningDefault lang)
    as [_ [B2 B3]].
  rewrite Hpre in A1, A2, B2, B3. fold before in A1, A2, B2, B3.
  destruct (tokens_unresolved before kw mid cand rest Hkw Hmid Hcand Hkey)
    as [U1 [U2 _]].
  destruct (tokens_unresolved before kw mid cand [] Hkw Hmid Hcand Hkey)
    as [_ [V2 V3]].
  assert (tokens ScanningDefault lang src
          = (tokens ScanningDefault lang pre
             ++ passed ++ tokens ScanningDefault before rest)%list) as Htok.
  { unfold src, passed. rewrite A1, U1. reflexivity. }
  split; [exact Htok|].
  split; [rewrite B2, V2; reflexivity|].
  split; [rewrite B3, V3; reflexivity|].
  split; [unfold src; rewrite A2, U2; reflexivity|].
  unfold PitchIterator_pitches, PitchIterator_tokens. cbn [source language].
  rewrite Htok. reflexivity.
Qed.

Lemma unresolved_directive_ignored_witness :
  tokens ScanningDefault (Some "nederlands")
         [note_c; check_1; kw_language_3; space_12; name_klingon_13;
          note_es_21]
  = [(note_c, Some "nederlands"); (check_1, Some "nederlands");
     (kw_language_3, Some "nederlands"); (space_12, Some "nederlands");
     (note_es_21, Some "nederlands")]
  /\ tokens_language ScanningDefault (Some "nederlands")
       [note_c; check_1; kw_language_3; space_12; name_klingon_13]
     = Some "nederlands"
  /\ tokens_mode ScanningDefault (Some "nederlands")
       [note_c; check_1; kw_language_3; space_12; name_klingon_13]
     = ScanningDefault.
Proof.
  pose proof (unresolved_directive_ignored (Some "nederlands")
                [note_c; check_1] kw_language_3 [space_12] name_klingon_13
                [note_es_21] eq_refl eq_refl
                ltac:(repeat constructor) eq_refl eq_refl) as H.
  split; [exact (proj1 H)|].
  split; [exact (proj1 (proj2 H)) | exact (proj1 (proj2 (proj2 H)))].
Defined.

(** A directive whose candidate resolves does change the language: the
    marker is yielded and the notes that follow are read in the new table. *)
Example resolved_directive_deutsch :
  tokens ScanningDefault (Some "nederlands")
         [kw_language; space_9; mkToken Other "deutsch.ly" 10 20; note_h]
  = [(kw_language, Some "nederlands"); (space_9, Some "nederlands");
     (new_LanguageName "deutsch" 10, Some "deutsch");
     (note_h, Some "deutsch")]
  /\ PitchIterator_read (Some "deutsch") note_h = Ok (Some (6, 0%Q))
  /\ PitchIterator_read (Some "nederlands") note_h = Ok None.
Proof. repeat split; reflexivity. Qed.

(** ** The language of the tokens before the first marker *)

Lemma tokens_prefix_language (src : list Token) :
  forall (m : GenMode) (lang : option string)
         (pre post : list (Token * option string)),
    tokens m lang src = (pre ++ post)%list ->
    Forall (fun tl => isinstance (fst tl) LanguageName = false) pre ->
    Forall (fun tl => snd tl = lang) pre.
Proof.
  induction src as [|t src IH]; intros m lang pre post E Hpre.
  - simpl in E. symmetry in E. apply app_eq_nil in E. destruct E as [-> _].
    constructor.
  - cbn [tokens] in E. destruct m.
    + cbn [tokens_step] in E.
      destruct pre as [|x pre]; [constructor|].
      simpl in E. injection E as <- E. inversion Hpre; subst.
      constructor; [reflexivity|]. eapply IH; eassumption.
    + destruct (skipped t) eqn:Hs.
      * rewrite (tokens_step_skipped lang t Hs) in E.
        destruct pre as [|x pre]; [constructor|].
        simpl in E. injection E as <- E. inversion Hpre; subst.
        constructor; [reflexivity|]. eapply IH; eassumption.
      * destruct (has_key pitchInfo (language_candidate t)) eqn:Hk.
        -- rewrite (tokens_step_resolved lang t Hs Hk) in E.
           destruct pre as [|x pre]; [constructor|].
           simpl in E. injection E as <- E. inversion Hpre; subst.
           simpl in *. discriminate.
        -- rewrite (tokens_step_unresolved lang t Hs Hk) in E.
           eapply IH; eassumption.
Qed.

(** ** Notes that do not decode *)

Lemma undecoded_note_step (t : Token) (lang : option string) :
  isinstance t Note = true ->
  PitchIterator_read lang t = Ok None ->
  pitches_step Scanning (t, lang) = ([], Ok Scanning).
Proof.
  intros Hn Hr. unfold pitches_step, examine. rewrite Hn, Hr. reflexivity.
Qed.

(** In the outer loop a note token that does not decode is yielded
    neither as a token nor as a pitch: the items are those of the tokens
    that follow. *)
Lemma undecoded_note_skipped (t : Token) (lang : option string)
    (toks : list (Token * option string)) :
  isinstance t Note = true ->
  PitchIterator_read lang t = Ok None ->
  pitches_from Scanning ((t, lang) :: toks) = pitches_from Scanning toks.
Proof.
  intros Hn Hr. cbn [pitches_from].
  rewrite (undecoded_note_step t lang Hn Hr).
  destruct (pitches_from Scanning toks). reflexivity.
Qed.

(** C3, on the code.  In nederlands the note token [do] does not decode;
    the scanner raises nothing and yields nothing for it, so the token is
    missing from the items, alone or followed by a space. *)
Theorem undecoded_note_dropped :
  isinstance note_do Note = true
  /\ read_in "nederlands" (tok_text note_do) = Ok None
  /\ PitchIterator_pitches (PitchIterator_init [note_do]) = ([], None)
  /\ PitchIterator_pitches (PitchIterator_init [note_do; space_9])
     = ([YToken space_9], None).
Proof. repeat split; reflexivity. Qed.

(** ** Write-back *)

Lemma PitchWriter_call_raises (w : PitchWriter) (n : Z) (a : Q) (e : exn) :
  PitchWriter_call w n a = Raise e ->
  e = IndexError \/ e = PitchNameNotAvailable (w_language w).
Proof.
  unfold PitchWriter_call.
  destruct (Py.getitem (w_names w) n) as [name|e1] eqn:E1; simpl.
  - destruct (Py.truthy_num a); simpl; [|discriminate].
    destruct (Py.getitem (w_accs w) _) as [acc|e2] eqn:E2; simpl.
    + destruct (Py.truthy_str acc); simpl; [discriminate|].
      intros [= <-]. now right.
    + intros [= <-]. left. eapply getitem_raises; eassumption.
  - intros [= <-]. left. eapply getitem_raises; eassumption.
Qed.

Lemma write_in_unavailable (l L : string) (n : Z) (a : Q) :
  write_in l n a = Raise (PitchNameNotAvailable L) -> L = l.
Proof.
  unfold write_in, pitchWriter, dict_get.
  destruct (lookup pitchInfo l) as [info|]; simpl; [|discriminate].
  intro H. apply PitchWriter_call_raises in H. simpl in H.
  destruct H as [H|H]; congruence.
Qed.

(** C5.  When the pitch name cannot be encoded in the target language,
    [write] raises [PitchNameNotAvailable] with that language and the document
    has received no call: it is as it was. *)
Theorem write_unavailable_no_edit (self : PitchIterator) (p : ScannedPitch)
    (document : Document) (language : option string) (l L : string) :
  language_or language self = Ok l ->
  write_in l (note (pitch p)) (alter (pitch p))
    = Raise (PitchNameNotAvailable L) ->
  write self p document language = (Raise (PitchNameNotAvailable L), document)
  /\ L = l.
Proof.
  intros Hl Hw. split.
  - unfold write. rewrite Hl. simpl bind. rewrite Hw. reflexivity.
  - eapply write_in_unavailable. exact Hw.
Qed.

Lemma write_unavailable_no_edit_witness :
  write (PitchIterator_init []) c_quarter_sharp
        [DelItem (Some (Slice 7 9))] (Some "espanol")
  = (Raise (PitchNameNotAvailable "espanol"), [DelItem (Some (Slice 7 9))]).
Proof.
  exact (proj1 (write_unavailable_no_edit (PitchIterator_init [])
                  c_quarter_sharp [DelItem (Some (Slice 7 9))]
                  (Some "espanol") "espanol" "espanol" eq_refl eq_refl)).
Defined.

(** C4, as stated, fails.  The scanner yields [c_checked] for a [c] followed
    by an octave check; nothing of it is changed, and [write] still sends one
    replacement to the document. *)
Lemma write_unchanged_check_counterexample :
  let self := PitchIterator_init [note_c; check_1] in
  PitchIterator_pitches self = ([YPitch c_checked; YToken check_1], None)
  /\ write_in "nederlands" (note (pitch c_checked)) (alter (pitch c_checked))
       = Ok (tok_text (noteToken c_checked))
  /\ octave (pitch c_checked) = origOctave c_checked
  /\ octaveCheck c_checked = origOctaveCheck c_checked
  /\ write self c_checked [] None
       = (Ok tt, [SetItem (Some (Slice 1 3)) "='"])
  /\ write self c_checked [] None <> (Ok tt, []).
Proof.
  repeat split; try reflexivity. discriminate.
Qed.

(** C4, amended.  When the pitch name encodes to the text of the note token,
    the octave is the original one and the octave check is the original one,
    [write] sends no call for the name and none for the octave; the document
    receives nothing when the pitch has no octave check, and when it has one
    it receives exactly one call, which replaces the span of the check with
    [=] followed by the octave marks of the check. *)
Theorem write_unchanged (self : PitchIterator) (p : ScannedPitch)
    (document : Document) (language : option string) (l : string) :
  language_or language self = Ok l ->
  write_in l (note (pitch p)) (alter (pitch p))
    = Ok (tok_text (noteToken p)) ->
  octave (pitch p) = origOctave p ->
  octaveCheck p = origOctaveCheck p ->
  write self p document language
  = (Ok tt,
     match origOctaveCheck p with
     | None => document
     | Some c =>
         (document
          ++ [SetItem (octaveCheckSlice p) ("=" ++ octaveToString c)%string])%list
     end).
Proof.
  intros Hl Hw Ho Hc. unfold write. rewrite Hl. simpl bind. rewrite Hw.
  rewrite String.eqb_refl, Ho, Z.eqb_refl, Hc. simpl.
  destruct (origOctaveCheck p); reflexivity.
Qed.

Lemma write_unchanged_witness :
  write (PitchIterator_init [note_c; check_1]) c_checked [] None
  = (Ok tt, [SetItem (Some (Slice 1 3)) "='"])
  /\ write (PitchIterator_init [note_c]) (new_scanned (0, 0%Q) note_c) [] None
  = (Ok tt, []).
Proof.
  split.
  - exact (write_unchanged (PitchIterator_init [note_c; check_1]) c_checked
             [] None "nederlands" eq_refl eq_refl eq_refl eq_refl).
  - exact (write_unchanged (PitchIterator_init [note_c])
             (new_scanned (0, 0%Q) note_c)
             [] None "nederlands" eq_refl eq_refl eq_refl eq_refl).
Defined.

(** ** Octave marks *)

Lemma count_repeat_same (c : ascii) (k : nat) :
  Py.count c (string_of_list_ascii (List.repeat c k)) = Z.of_nat k.
Proof.
  induction k as [|k IH]; [reflexivity|].
  cbn [List.repeat string_of_list_ascii Py.count].
  rewrite Ascii.eqb_refl, IH. lia.
Qed.

Lemma count_repeat_other (c d : ascii) (k : nat) :
  c <> d -> Py.count c (string_of_list_ascii (List.repeat d k)) = 0.
Proof.
  intro H. induction k as [|k IH]; [reflexivity|].
  cbn [List.repeat string_of_list_ascii Py.count].
  destruct (Ascii.eqb_spec d c) as [E|_]; [congruence|]. rewrite IH. reflexivity.
Qed.

Lemma octaveToString_cases (n : Z) :
  octaveToString n
  = if n <? 0 then Py.repeat ","%char (- n) else Py.repeat "'"%char n.
Proof.
  unfold octaveToString. destruct (Z.ltb_spec n 0) as [H|H]; [|reflexivity].
  unfold Py.repeat. destruct (Z.to_nat (- n)) eqn:E; [lia|]. reflexivity.
Qed.

(** Section 8, octave symmetry. *)
Lemma octaveToNum_octaveToString (n : Z) : octaveToNum (octaveToString n) = n.
Proof.
  rewrite octaveToString_cases. unfold octaveToNum, Py.repeat.
  destruct (Z.ltb_spec n 0) as [H|H].
  - rewrite count_repeat_same, count_repeat_other by discriminate. lia.
  - rewrite count_repeat_same, count_repeat_other by discriminate. lia.
Qed.

(** An octave check written as [=] followed by marks of one kind is what
    [write] puts back for it. *)
Lemma octaveCheck_text_restored (n : Z) :
  ("=" ++ octaveToString (octaveToNum ("=" ++ octaveToString n)))%string
  = ("=" ++ octaveToString n)%string.
Proof.
  f_equal. f_equal.
  change (octaveToNum ("=" ++ octaveToString n))
    with (octaveToNum (octaveToString n)).
  apply octaveToNum_octaveToString.
Qed.

(** ** The reader raises nothing *)

Lemma index_from_In (l : list string) (x : string) :
  In x l -> forall k, exists i, Py.index_from k l x = Ok i.
Proof.
  induction l as [|y l IH]; intros Hin k; [contradiction|]. simpl.
  destruct (String.eqb_spec y x) as [_|Hne]; [eauto|].
  destruct Hin as [E|Hin]; [contradiction|]. apply IH. exact Hin.
Qed.

Lemma rx_group2_In (alts : list string) (rest a : string) :
  rx_group2 alts rest = Some a -> In a alts.
Proof.
  induction alts as [|b alts IH]; simpl; [discriminate|].
  destruct (_ && _).
  - intros [= ->]. now left.
  - intro H. right. auto.
Qed.

Lemma rx_match_In (names alts : list string) (text n : string)
    (g : option string) :
  rx_match names alts text = Some (n, g) ->
  In n names /\ (forall a, g = Some a -> In a alts).
Proof.
  induction names as [|m names IH]; simpl; [discriminate|].
  destruct (Py.startswith text m).
  - destruct (rx_group2 alts _) as [b|] eqn:G.
    + intros [= -> <-]. split; [now left|].
      intros a [= <-]. eapply rx_group2_In. exact G.
    + destruct (at_end _).
      * intros [= -> <-]. split; [now left | discriminate].
      * intro H. destruct (IH H). split; [now right | assumption].
  - intro H. destruct (IH H). split; [now right | assumption].
Qed.

Lemma rx_accs_In (accs : list string) (a : string) :
  In a (rx_accs accs) -> a = "" \/ In a accs.
Proof.
  unfold rx_accs. destruct (filter Py.truthy_str accs) as [|b l] eqn:F.
  - intros [<-|[]]. now left.
  - rewrite <- F. intro H. apply filter_In in H. right. tauto.
Qed.

Lemma reader_result_total (self : PitchReader) (text n : string)
    (g : option string) :
  rx_match (r_names self) (rx_accs (r_accs self)) text = Some (n, g) ->
  exists p, reader_result self (n, g) = Ok p.
Proof.
  intro H. apply rx_match_In in H. destruct H as [Hn Hg].
  unfold reader_result, Py.index. cbn [fst snd].
  destruct (index_from_In _ _ Hn 0) as [i ->]. simpl.
  destruct g as [a|]; [|eauto].
  unfold Py.truthy_str. destruct (String.eqb_spec a "") as [->|Hne]; simpl.
  - eauto.
  - destruct (rx_accs_In _ _ (Hg a eq_refl)) as [E|Hin]; [contradiction|].
    destruct (index_from_In _ _ Hin 0) as [j ->]. simpl. eauto.
Qed.

(** Once the pattern has matched, the two [index] calls find the groups,
    which are a name and an accidental of the reader.  The pattern is read as
    [rx_match] reads it, names and accidentals as literal strings, which is
    what it is for the tables of [pitchInfo]; the lemma is used for those
    only. *)
Lemma PitchReader_call_total (self : PitchReader) (text : string) :
  exists r, PitchReader_call self text = Ok r.
Proof.
  unfold PitchReader_call.
  destruct (rx_match _ _ (reader_replace _ text)) as [[n g]|] eqn:M1.
  - destruct (reader_result_total _ _ _ _ M1) as [p ->]. simpl. eauto.
  - destruct (rx_match _ _ (long_english _)) as [[n g]|] eqn:M2.
    + destruct (reader_result_total _ _ _ _ M2) as [p ->]. simpl. eauto.
    + eauto.
Qed.

Lemma read_in_total (L text : string) :
  has_key pitchInfo L = true -> exists r, read_in L text = Ok r.
Proof.
  intro H. apply has_key_lookup in H. destruct H as [info H].
  unfold read_in. rewrite (pitchReader_registered L info H). simpl.
  apply PitchReader_call_total.
Qed.

(** ** The language of a new iterator *)

Lemma pitches_of_app (a b : list Item) :
  pitches_of (a ++ b) = (pitches_of a ++ pitches_of b)%list.
Proof.
  induction a as [|x a IH]; [reflexivity|].
  destruct x; simpl; rewrite IH; reflexivity.
Qed.

(** The pitch [examine] opens is what the table of the language makes of
    the token. *)
Lemma examine_decoding (L : string) (t : Token) :
  has_key pitchInfo L = true ->
  exists out st,
    examine t (Some L) = Ok (out, st)
    /\ map decoding (pitches_of out ++ held st) = decoded_in L t.
Proof.
  intro HL. unfold examine, decoded_in, PitchIterator_read.
  destruct (isinstance t Note).
  - destruct (read_in_total L (tok_text t) HL) as [r Hr]. rewrite Hr.
    destruct r as [[n a]|]; simpl; eauto.
  - simpl. eauto.
Qed.

Lemma not_Note (t : Token) (c : TokenClass) :
  c <> Note -> isinstance t c = true -> isinstance t Note = false.
Proof.
  unfold isinstance. intros Hc H.
  destruct (tok_class t), c; try reflexivity; try discriminate H.
  now elim Hc.
Qed.

(** One token more: the pitch held is kept or yielded with the note it was
    decoded to, and a note token opens a pitch as [examine] has it. *)
Lemma pitches_step_decoding (L : string) (st : PState) (t : Token) :
  has_key pitchInfo L = true ->
  exists out st',
    pitches_step st (t, Some L) = (out, Ok st')
    /\ map decoding (pitches_of out ++ held st')
       = (map decoding (held st) ++ decoded_in L t)%list.
Proof.
  intro HL.
  destruct (examine_decoding L t HL) as [out [st' [E D]]].
  unfold pitches_step. destruct st as [|p last].
  - rewrite E. simpl. eauto.
  - destruct (isinstance t Octave) eqn:C1.
    { exists [], (Collecting (with_octave p t) (Some (t, Some L))).
      split; [reflexivity|]. unfold decoded_in.
      rewrite (not_Note t Octave ltac:(discriminate) C1). reflexivity. }
    destruct (isinstance t OctaveCheck) eqn:C2.
    { rewrite E. simpl. eexists _, _. split; [reflexivity|].
      simpl. rewrite D. reflexivity. }
    destruct (isinstance t Space || isinstance t Accidental) eqn:C3; simpl.
    + exists [], (Collecting p (Some (t, Some L))).
      split; [reflexivity|]. unfold decoded_in.
      apply orb_true_iff in C3. destruct C3 as [C3|C3].
      * rewrite (not_Note t Space ltac:(discriminate) C3). reflexivity.
      * rewrite (not_Note t Accidental ltac:(discriminate) C3). reflexivity.
    + rewrite E. simpl. eexists _, _. split; [reflexivity|].
      simpl. rewrite D. reflexivity.
Qed.

(** Over tokens that all come with the language [L], [pitches] raises
    nothing, and the pitches it makes, those yielded and the one held at the
    end, are the one it held at the start and then, in order, what the table
    of [L] makes of each token. *)
Lemma pitches_run_decoding (L : string)
    (toks : list (Token * option string)) :
  has_key pitchInfo L = true ->
  Forall (fun tl => snd tl = Some L) toks ->
  forall st : PState,
  exists out st',
    pitches_run st toks = (out, Ok st')
    /\ map decoding (pitches_of out ++ held st')
       = (map decoding (held st)
          ++ flat_map (fun tl => decoded_in L (fst tl)) toks)%list.
Proof.
  intros HL H. induction H as [|[t l] toks Hl _ IH]; intro st.
  - exists [], st. split; [reflexivity|]. simpl. rewrite app_nil_r.
    reflexivity.
  - simpl in Hl. subst l.
    destruct (pitches_step_decoding L st t HL) as [out [st1 [E D]]].
    destruct (IH st1) as [ys [st2 [E2 D2]]].
    exists (out ++ ys)%list, st2. cbn [pitches_run]. rewrite E, E2.
    split; [reflexivity|].
    cbn [flat_map fst].
    rewrite pitches_of_app, <- app_assoc, map_app, D2.
    rewrite app_assoc, <- map_app, D, <- app_assoc. reflexivity.
Qed.

(** The items over a stream in two parts: those over the first part, then
    those [pitches] yields over the second from the state it is in. *)
Lemma pitches_from_app (a b : list (Token * option string)) :
  forall st : PState,
    pitches_from st (a ++ b)
    = match pitches_run st a with
      | (out, Ok st') =>
          ((out ++ fst (pitches_from st' b))%list, snd (pitches_from st' b))
      | (out, Raise e) => (out, Some e)
      end.
Proof.
  induction a as [|tl a IH]; intro st.
  - simpl. destruct (pitches_from st b); reflexivity.
  - cbn [app pitches_from pitches_run].
    destruct (pitches_step st tl) as [out [st1|e]]; [|reflexivity].
    rewrite IH.
    destruct (pitches_run st1 a) as [ys [st2|e]]; [|reflexivity].
    cbn [fst snd]. rewrite app_assoc. reflexivity.
Qed.

(** C10.  A new iterator has the language nederlands.  Let [pre] be tokens
    that [tokens] yields before the first language-name marker, the token a
    recognized directive produces.  Each of them is yielded with the language
    nederlands.  Over them [pitches] raises nothing, and the pitches it makes
    of them, those it has yielded and the one it holds when it asks for the
    next token, are in order the note tokens of [pre] that decode in the
    nederlands table, each with the note and the alteration that table gives:
    a note token that the table does not decode gives no pitch, and no pitch
    has a note or an alteration from another table.  What [pitches] yields
    over the whole source is what it has yielded over [pre], followed by
    what it yields over the rest from the state it is in. *)
Theorem init_language_nederlands (src : list Token)
    (pre post : list (Token * option string)) :
  PitchIterator_tokens (PitchIterator_init src) = (pre ++ post)%list ->
  Forall (fun tl => isinstance (fst tl) LanguageName = false) pre ->
  language (PitchIterator_init src) = Some "nederlands"
  /\ Forall (fun tl => snd tl = Some "nederlands") pre
  /\ exists out st,
       pitches_run Scanning pre = (out, Ok st)
       /\ map decoding (pitches_of out ++ held st)
          = flat_map (fun tl => decoded_in "nederlands" (fst tl)) pre
       /\ PitchIterator_pitches (PitchIterator_init src)
          = ((out ++ fst (pitches_from st post))%list,
             snd (pitches_from st post)).
Proof.
  intros E Hpre. split; [reflexivity|].
  assert (Forall (fun tl => snd tl = Some "nederlands") pre) as Hl.
  { unfold PitchIterator_tokens in E.
    exact (tokens_prefix_language _ _ _ _ _ E Hpre). }
  split; [exact Hl|].
  destruct (pitches_run_decoding "nederlands" pre eq_refl Hl Scanning)
    as [out [st [R D]]].
  exists out, st. split; [exact R|]. split; [exact D|].
  unfold PitchIterator_pitches. rewrite E, pitches_from_app, R. reflexivity.
Qed.

(** In [c=' \language klingon es] no directive is recognized: the pitches
    are those of [c] and [es], which the nederlands table decodes to c and to
    e flat. *)
Lemma init_language_nederlands_witness :
  language (PitchIterator_init
              [note_c; check_1; kw_language_3; space_12; name_klingon_13;
               note_es_21])
    = Some "nederlands"
  /\ exists out st,
       pitches_run Scanning
         [(note_c, Some "nederlands"); (check_1, Some "nederlands");
          (kw_language_3, Some "nederlands"); (space_12, Some "nederlands");
          (note_es_21, Some "nederlands")]
       = (out, Ok st)
       /\ map decoding (pitches_of out ++ held st)
          = [(note_c, (0, 0%Q)); (note_es_21, (2, Qmake (-1) 2))].
Proof.
  destruct (init_language_nederlands
              [note_c; check_1; kw_language_3; space_12; name_klingon_13;
               note_es_21]
              [(note_c, Some "nederlands"); (check_1, Some "nederlands");
               (kw_language_3, Some "nederlands");
               (space_12, Some "nederlands");
               (note_es_21, Some "nederlands")] []
              eq_refl ltac:(repeat constructor))
    as [H1 [_ [out [st [R [D _]]]]]].
  split; [exact H1|].
  exists out, st. split; [exact R | exact D].
Defined.

(** ** What the scanner yields *)

Lemma tokens_registered (src : list Token) :
  forall (m : GenMode) (lang : option string),
    registered lang = true ->
    Forall (fun tl => registered (snd tl) = true) (tokens m lang src).
Proof.
  induction src as [|t src IH]; intros m lang Hl; [constructor|].
  cbn [tokens]. destruct m.
  - cbn [tokens_step]. constructor; [exact Hl | apply IH; exact Hl].
  - destruct (skipped t) eqn:Hs.
    + rewrite (tokens_step_skipped lang t Hs).
      constructor; [exact Hl | apply IH; exact Hl].
    + destruct (has_key pitchInfo (language_candidate t)) eqn:Hk.
      * rewrite (tokens_step_resolved lang t Hs Hk).
        constructor; [exact Hk | apply IH; exact Hk].
      * rewrite (tokens_step_unresolved lang t Hs Hk). apply IH. exact Hl.
Qed.

Lemma new_scanned_untouched (na : Z * Q) (t : Token) :
  untouched (new_scanned na t).
Proof. repeat split; reflexivity. Qed.

Lemma with_octave_untouched (p : ScannedPitch) (t : Token) :
  untouched p -> untouched (with_octave p t).
Proof. intros [_ [H1 H2]]. repeat split; simpl; tauto. Qed.

Lemma with_octaveCheck_untouched (p : ScannedPitch) (t : Token) :
  untouched p -> untouched (with_octaveCheck p t).
Proof.
  intros [H _]. unfold untouched; simpl. intuition discriminate.
Qed.

Lemma examine_ok (t : Token) (lang : option string) :
  registered lang = true ->
  exists out st, examine t lang = Ok (out, st)
    /\ Forall item_untouched out /\ state_ok st.
Proof.
  intro Hl. unfold examine. destruct (isinstance t Note).
  - destruct lang as [L|]; [|discriminate Hl]. simpl in Hl.
    destruct (read_in_total L (tok_text t) Hl) as [r Hr].
    unfold PitchIterator_read. rewrite Hr. simpl.
    destruct r as [na|].
    + exists [], (Collecting (new_scanned na t) None).
      repeat split; auto using new_scanned_untouched.
    + exists [], Scanning. repeat split; auto.
  - exists [YToken t], Scanning. repeat split; auto. constructor; simpl; auto.
Qed.

Lemma pitches_step_ok (st : PState) (tl : Token * option string) :
  state_ok st -> registered (snd tl) = true ->
  exists out st', pitches_step st tl = (out, Ok st')
    /\ Forall item_untouched out /\ state_ok st'.
Proof.
  destruct tl as [t lang]. intros Hst Hl. simpl in Hl.
  destruct (examine_ok t lang Hl) as [out [st' [E [Hout Hst']]]].
  unfold pitches_step. destruct st as [|p last].
  - rewrite E. simpl. eauto.
  - destruct Hst as [Hp _].
    destruct (isinstance t Octave).
    { exists [], (Collecting (with_octave p t) (Some (t, lang))).
      repeat split; auto using with_octave_untouched;
        apply with_octave_untouched; exact Hp. }
    destruct (isinstance t OctaveCheck).
    { rewrite E. simpl. exists (YPitch (with_octaveCheck p t) :: out), st'.
      repeat split; auto. constructor; [|exact Hout].
      apply with_octaveCheck_untouched. exact Hp. }
    destruct (negb _).
    { rewrite E. simpl. exists (YPitch p :: out), st'.
      repeat split; auto. }
    exists [], (Collecting p (Some (t, lang))). repeat split; auto; apply Hp.
Qed.

Lemma pitches_finish_ok (st : PState) :
  state_ok st ->
  exists out, pitches_finish st = (out, None) /\ Forall item_untouched out.
Proof.
  destruct st as [|p [[t lang]|]]; simpl.
  - eauto.
  - intros [Hp Hl].
    destruct (examine_ok t lang Hl) as [out [st' [E [Hout Hst']]]].
    rewrite E. destruct st' as [|p' last'].
    + eexists. split; [reflexivity|]. constructor; assumption.
    + eexists. split; [reflexivity|]. constructor; [assumption|].
      apply Forall_app. split; [assumption|].
      constructor; [apply Hst' | constructor].
  - intros [Hp _]. eexists. split; [reflexivity|].
    constructor; [exact Hp | constructor].
Qed.

Lemma pitches_from_ok (toks : list (Token * option string)) :
  forall st,
    state_ok st ->
    Forall (fun tl => registered (snd tl) = true) toks ->
    exists out, pitches_from st toks = (out, None)
      /\ Forall item_untouched out.
Proof.
  induction toks as [|tl toks IH]; intros st Hst Htoks.
  - apply pitches_finish_ok. exact Hst.
  - inversion Htoks as [|? ? Hl Hrest]; subst.
    destruct (pitches_step_ok st tl Hst Hl) as [out [st' [E [Hout Hst']]]].
    destruct (IH st' Hst' Hrest) as [out' [E' Hout']].
    cbn [pitches_from]. rewrite E, E'.
    eexists. split; [reflexivity|]. apply Forall_app. split; assumption.
Qed.

(** Over any source the scanner of a new iterator ends without an
    exception, and every pitch it yields has its octave and its octave check
    equal to the original ones. *)
Lemma pitches_init_ok (src : list Token) :
  exists out,
    PitchIterator_pitches (PitchIterator_init src) = (out, None)
    /\ Forall item_untouched out.
Proof.
  unfold PitchIterator_pitches, PitchIterator_tokens.
  apply pitches_from_ok; [exact I|].
  apply tokens_registered. reflexivity.
Qed.

(** The language only changes together with a marker being yielded: once the
    source is exhausted the iterator has the language of the last token it
    yielded. *)
Lemma tokens_language_last (src : list Token) :
  forall (m : GenMode) (lang : option string),
    tokens_language m lang src = last (map snd (tokens m lang src)) lang.
Proof.
  assert (forall (a d : option string) l, last (a :: l) d = last l a) as L.
  { intros a d l. revert a d.
    induction l as [|b l IH]; intros a d; [reflexivity|].
    change (last (a :: b :: l) d) with (last (b :: l) d).
    rewrite (IH b d), (IH b a). reflexivity. }
  induction src as [|t src IH]; intros m lang; [reflexivity|].
  cbn [tokens tokens_language]. destruct m.
  - cbn [tokens_step]. cbn [map snd]. rewrite L. apply IH.
  - destruct (skipped t) eqn:Hs.
    + rewrite (tokens_step_skipped lang t Hs). cbn [map snd]. rewrite L. apply IH.
    + destruct (has_key pitchInfo (language_candidate t)) eqn:Hk.
      * rewrite (tokens_step_resolved lang t Hs Hk). cbn [map snd].
        rewrite L. apply IH.
      * rewrite (tokens_step_unresolved lang t Hs Hk). apply IH.
Qed.

(** * Further properties *)

(** ** Octave marks and octave arithmetic *)

Lemma length_repeat (c : ascii) (k : nat) :
  String.length (string_of_list_ascii (List.repeat c k)) = k.
Proof. induction k as [|k IH]; simpl; congruence. Qed.

Lemma count_append (c : ascii) (s t : string) :
  Py.count c (s ++ t) = Py.count c s + Py.count c t.
Proof.
  induction s as [|d s IH]; [reflexivity|].
  cbn [append Py.count]. rewrite IH. lia.
Qed.

(** X1.  [octaveToNum] undoes [octaveToString] for every integer, and the
    string has as many marks as the absolute value of the octave. *)
Theorem octave_symmetry (n : Z) :
  octaveToNum (octaveToString n) = n
  /\ Z.of_nat (String.length (octaveToString n)) = Z.abs n.
Proof.
  split; [apply octaveToNum_octaveToString|].
  rewrite octaveToString_cases. unfold Py.repeat.
  destruct (Z.ltb_spec n 0); rewrite length_repeat; lia.
Qed.

(** X2.  [octaveToNum] adds up over concatenation and only counts marks:
    the number of an octave check [=] followed by the marks of [n] is [n],
    and marks of both kinds cancel. *)
Theorem octaveToNum_append (s t : string) (n m : Z) :
  octaveToNum (s ++ t) = octaveToNum s + octaveToNum t
  /\ octaveToNum ("=" ++ octaveToString n) = n
  /\ octaveToNum (octaveToString n ++ octaveToString m) = n + m.
Proof.
  assert (forall a b, octaveToNum (a ++ b) = octaveToNum a + octaveToNum b) as A.
  { intros a b. unfold octaveToNum. rewrite !count_append. lia. }
  split; [apply A|]. split.
  - rewrite A, octaveToNum_octaveToString. reflexivity.
  - rewrite A, !octaveToNum_octaveToString. reflexivity.
Qed.

(** X9.  Counting steps as [7 * octave + note], the pitch [makeAbsolute]
    gives lies [7 * p.octave + ((p.note - prev.note + 3) mod 7) - 3] steps
    above the previous one; so with a relative octave of 0 it is within three
    steps (a fourth) of it, whatever the notes.  [makeAbsolute] also undoes
    [makeRelative]. *)
Theorem makeAbsolute_within_a_fourth (p prev : Pitch) :
  let abs := makeAbsolute p prev in
  (7 * octave abs + note abs) - (7 * octave prev + note prev)
    = 7 * octave p + (note p - note prev + 3) mod 7 - 3
  /\ (octave p = 0 ->
      -3 <= (7 * octave abs + note abs) - (7 * octave prev + note prev) <= 3)
  /\ makeAbsolute (makeRelative p prev) prev = p.
Proof.
  intro abs. subst abs. unfold makeAbsolute, makeRelative, set_octave.
  cbn [octave note alter].
  pose proof (Z.div_mod (note p - note prev + 3) 7 ltac:(lia)) as D.
  pose proof (Z.mod_pos_bound (note p - note prev + 3) 7 ltac:(lia)) as B.
  split; [lia|]. split; [intro H; lia|].
  destruct p as [n a o]. cbn [octave note alter]. f_equal. lia.
Qed.

Lemma makeAbsolute_within_a_fourth_witness :
  -3 <= (7 * octave (makeAbsolute (mkPitch 0 0 0) (mkPitch 6 0 2))
         + note (makeAbsolute (mkPitch 0 0 0) (mkPitch 6 0 2)))
        - (7 * 2 + 6) <= 3.
Proof.
  exact (proj1 (proj2 (makeAbsolute_within_a_fourth
                         (mkPitch 0 0 0) (mkPitch 6 0 2))) eq_refl).
Defined.

(** ** What the reader returns *)

Lemma index_from_spec (l : list string) (x : string) :
  forall k i, Py.index_from k l x = Ok i ->
    k <= i < k + Z.of_nat (List.length l)
    /\ nth_error l (Z.to_nat (i - k)) = Some x.
Proof.
  induction l as [|y l IH]; intros k i; simpl; [discriminate|].
  destruct (String.eqb_spec y x) as [->|_].
  - intros [= <-]. rewrite Z.sub_diag. split; [lia | reflexivity].
  - intro H. apply IH in H. destruct H as [B N]. split; [lia|].
    replace (Z.to_nat (i - k)) with (S (Z.to_nat (i - (k + 1)))) by lia.
    exact N.
Qed.

Lemma getitem_nth {A : Type} (l : list A) (i : Z) (x : A) :
  0 <= i -> nth_error l (Z.to_nat i) = Some x -> Py.getitem l i = Ok x.
Proof.
  intros Hi N. unfold Py.getitem.
  assert (Z.to_nat i < List.length l)%nat as B
    by (apply nth_error_Some; congruence).
  destruct (Z.ltb_spec i 0); [lia|].
  destruct (Z.leb_spec 0 i); [|lia].
  destruct (Z.ltb_spec i (Z.of_nat (List.length l))); [|lia].
  simpl. rewrite N. reflexivity.
Qed.

(** A decoded pair names an entry of each table: the note is the position
    of a name, and the alteration is 0 or comes from the position of a
    non-empty accidental. *)
Lemma PitchReader_call_in_table (self : PitchReader) (text : string)
    (n : Z) (a : Q) :
  PitchReader_call self text = Ok (Some (n, a)) ->
  0 <= n < Z.of_nat (List.length (r_names self))
  /\ (a = 0%Q
      \/ exists i acc,
           0 <= i < Z.of_nat (List.length (r_accs self))
           /\ Py.getitem (r_accs self) i = Ok acc /\ acc <> ""
           /\ a = Py.Fraction (i - 4) 4).
Proof.
  assert (forall m, reader_result self m = Ok (n, a) ->
            0 <= n < Z.of_nat (List.length (r_names self))
            /\ (a = 0%Q
                \/ exists i acc,
                     0 <= i < Z.of_nat (List.length (r_accs self))
                     /\ Py.getitem (r_accs self) i = Ok acc /\ acc <> ""
                     /\ a = Py.Fraction (i - 4) 4)) as R.
  { intros [g1 g2]. unfold reader_result, Py.index. cbn [fst snd].
    destruct (Py.index_from 0 (r_names self) g1) as [k|e] eqn:E1; simpl;
      [|discriminate].
    apply index_from_spec in E1. destruct E1 as [B1 _].
    destruct g2 as [g|].
    - unfold Py.truthy_str. destruct (String.eqb_spec g "") as [->|Hne]; simpl.
      + intros [= <- <-]. split; [lia | now left].
      + destruct (Py.index_from 0 (r_accs self) g) as [i|e] eqn:E2; simpl;
          [|discriminate].
        intros [= <- <-]. apply index_from_spec in E2. destruct E2 as [B2 N2].
        rewrite Z.sub_0_r in N2.
        split; [lia|]. right. exists i, g.
        repeat split; try lia; auto. apply getitem_nth; [lia | exact N2].
    - intros [= <- <-]. split; [lia | now left]. }
  unfold PitchReader_call.
  destruct (rx_match _ _ (reader_replace _ text)) as [m|].
  - destruct (reader_result self m) as [[n' a']|e] eqn:E; simpl; [|discriminate].
    intros [= <- <-]. exact (R m E).
  - destruct (rx_match _ _ (long_english _)) as [m|]; [|discriminate].
    destruct (reader_result self m) as [[n' a']|e] eqn:E; simpl; [|discriminate].
    intros [= <- <-]. exact (R m E).
Qed.

Lemma Fraction_index (i : Z) :
  Qeq (Py.Fraction (i - 4) 4 * 4 + 4) (inject_Z i).
Proof.
  unfold Py.Fraction. rewrite Qred_correct. apply index_of_quarter.
Qed.

(** In a registered language a decoded pair is in the domain of the
    writer, with a named alteration. *)
Lemma read_in_slot (L : string) (info : LanguageInfo) (text : string)
    (n : Z) (a : Q) :
  lookup pitchInfo L = Some info ->
  read_in L text = Ok (Some (n, a)) ->
  0 <= n <= 6
  /\ exists i, 0 <= i <= 8 /\ Qeq (a * 4 + 4) (inject_Z i)
       /\ (Py.getitem (info_accs info) i <> Ok "" \/ Qeq a 0).
Proof.
  intros HL H. destruct (pitchInfo_shape L info HL) as [Hn [Ha _]].
  unfold read_in in H. rewrite (pitchReader_registered L info HL) in H.
  simpl in H. apply PitchReader_call_in_table in H. simpl in H.
  destruct H as [Bn [->|[i [acc [Bi [G [Hne ->]]]]]]].
  - split; [lia|]. exists 4. split; [lia|]. split; [reflexivity|].
    right. reflexivity.
  - split; [lia|]. exists i. split; [lia|]. split; [apply Fraction_index|].
    left. rewrite G. congruence.
Qed.

(** The round trip from a slot, as a step of other proofs. *)
Lemma roundtrip_slot (L : string) (info : LanguageInfo) (n i : Z) (a : Q) :
  lookup pitchInfo L = Some info ->
  0 <= n <= 6 -> 0 <= i <= 8 ->
  Qeq (a * 4 + 4) (inject_Z i) ->
  Py.getitem (info_accs info) i <> Ok "" \/ Qeq a 0 ->
  exists s a',
    write_in L n a = Ok s /\ read_in L s = Ok (Some (n, a')) /\ Qeq a' a.
Proof.
  intros HL Hn Hi Ha Hslot.
  pose proof roundtrip_table_holds as T. unfold roundtrip_table in T.
  rewrite forallb_forall in T. specialize (T (L, info) (lookup_In _ _ _ HL)).
  rewrite forallb_forall in T. specialize (T n (In_notes_range n Hn)).
  rewrite forallb_forall in T. specialize (T i (In_accs_range i Hi)).
  unfold roundtrip_at in T. cbn [fst snd] in T.
  rewrite (write_in_index L n a ((i - 4) # 4) i Ha (index_of_quarter i)).
  destruct (Py.getitem (info_accs info) i) as [acc|e]; [|discriminate T].
  assert (Py.truthy_str acc || (i =? 4) = true) as C.
  { destruct Hslot as [Hne|Hz].
    - unfold Py.truthy_str.
      destruct (String.eqb_spec acc "") as [->|_]; [now elim Hne | reflexivity].
    - apply (alter_zero_index a i Ha) in Hz. subst i. apply orb_true_r. }
  rewrite C in T.
  destruct (write_in L n ((i - 4) # 4)) as [s|e]; [|discriminate T].
  destruct (read_in L s) as [[[n' a']|]|e] eqn:R; try discriminate T.
  apply andb_true_iff in T. destruct T as [T1 T2].
  apply Z.eqb_eq in T1. subst n'. apply Qeq_bool_iff in T2.
  exists s, a'. split; [reflexivity|]. split; [exact R|].
  apply (Qeq_trans _ _ _ T2). apply Qeq_sym, alter_of_index. exact Ha.
Qed.

(** X3.  In a registered language decoding raises nothing, whatever the
    text: the two [index] calls find what the pattern matched, so [read_in]
    returns a pair or [False].  For a language that is not a key of
    [pitchInfo] it raises the [KeyError] of the look-up, whatever the text. *)
Theorem reader_never_raises (L : string) (text : string) :
  (has_key pitchInfo L = true -> exists r, read_in L text = Ok r)
  /\ (has_key pitchInfo L = false -> read_in L text = Raise (KeyError L)).
Proof.
  split; [apply read_in_total|].
  intro H. unfold read_in, pitchReader, dict_get.
  destruct (lookup pitchInfo L) as [info|] eqn:E; [|reflexivity].
  assert (has_key pitchInfo L = true) by (apply has_key_lookup; eauto).
  congruence.
Qed.

Lemma reader_never_raises_witness :
  (exists r, read_in "vlaams" "solk" = Ok r)
  /\ read_in "klingon" "c" = Raise (KeyError "klingon").
Proof.
  split.
  - exact (proj1 (reader_never_raises "vlaams" "solk") eq_refl).
  - exact (proj2 (reader_never_raises "klingon" "c") eq_refl).
Defined.

(** X4.  In a registered language, whatever text decodes, the note is in
    0..6 and the alteration is a multiple of 1/4 between -1 and 1 whose
    accidental is not empty, or is 0. *)
Theorem read_in_bounds (L : string) (info : LanguageInfo) (text : string)
    (n : Z) (a : Q) :
  lookup pitchInfo L = Some info ->
  read_in L text = Ok (Some (n, a)) ->
  0 <= n <= 6
  /\ (-1 <= a <= 1)%Q
  /\ exists i, 0 <= i <= 8 /\ Qeq a ((i - 4) # 4)
       /\ (Py.getitem (info_accs info) i <> Ok "" \/ i = 4).
Proof.
  intros HL H. destruct (read_in_slot L info text n a HL H) as [Hn [i [Hi [Ha S]]]].
  pose proof (alter_of_index a i Ha) as E.
  split; [exact Hn|]. split.
  - rewrite E. unfold Qle. simpl. lia.
  - exists i. split; [exact Hi|]. split; [exact E|].
    destruct S as [S|S]; [now left|]. right.
    apply (alter_zero_index a i Ha). exact S.
Qed.

Lemma read_in_bounds_witness :
  0 <= 6 <= 6
  /\ (-1 <= -1 <= 1)%Q
  /\ exists i, 0 <= i <= 8 /\ Qeq (-1) ((i - 4) # 4)
       /\ (Py.getitem (info_accs deutsch_info) i <> Ok "" \/ i = 4).
Proof.
  exact (read_in_bounds "deutsch" deutsch_info "bes" 6 (-1) eq_refl eq_refl).
Defined.

(** X5.  In a registered language, a pitch that was decoded can always be
    encoded again, and the spelling obtained decodes to the same pitch: the
    writer never raises on what the reader returned. *)
Theorem write_after_read (L : string) (info : LanguageInfo) (text : string)
    (n : Z) (a : Q) :
  lookup pitchInfo L = Some info ->
  read_in L text = Ok (Some (n, a)) ->
  exists s a',
    write_in L n a = Ok s /\ read_in L s = Ok (Some (n, a')) /\ Qeq a' a.
Proof.
  intros HL H. destruct (read_in_slot L info text n a HL H) as [Hn [i [Hi [Ha S]]]].
  exact (roundtrip_slot L info n i a HL Hn Hi Ha S).
Qed.

(** The spelling written need not be the text read: the long English form
    and the unreplaced Dutch form are read, and written back short. *)
Example write_after_read_normalises :
  read_in "english" "bflat" = Ok (Some (6, -1 # 2))
  /\ write_in "english" 6 (-1 # 2) = Ok "bf"
  /\ read_in "nederlands" "ees" = Ok (Some (2, -1 # 2))
  /\ write_in "nederlands" 2 (-1 # 2) = Ok "es".
Proof. repeat split; reflexivity. Qed.

Lemma write_after_read_witness :
  exists s a',
    write_in "english" 6 (-1 # 2) = Ok s
    /\ read_in "english" s = Ok (Some (6, a')) /\ Qeq a' (-1 # 2).
Proof.
  exact (write_after_read "english" english_info "bflat" 6 (-1 # 2)
           eq_refl eq_refl).
Defined.

(** ** What the writer raises *)

Lemma getitem_IndexError {A : Type} (l : list A) (i : Z) :
  Py.getitem l i = Raise IndexError
  <-> i < - Z.of_nat (List.length l) \/ Z.of_nat (List.length l) <= i.
Proof.
  unfold Py.getitem.
  set (len := Z.of_nat (List.length l)).
  set (j := if i <? 0 then i + len else i).
  assert (j = if i <? 0 then i + len else i) as Hj by reflexivity.
  destruct ((0 <=? j) && (j <? len)) eqn:C.
  - apply andb_true_iff in C. destruct C as [C1 C2].
    apply Z.leb_le in C1. apply Z.ltb_lt in C2.
    destruct (nth_error l (Z.to_nat j)) eqn:E.
    + split; [discriminate|]. destruct (Z.ltb_spec i 0); lia.
    + apply nth_error_None in E. lia.
  - split; [intros _|reflexivity].
    apply andb_false_iff in C.
    destruct C as [C|C]; [apply Z.leb_gt in C | apply Z.ltb_ge in C];
      destruct (Z.ltb_spec i 0); lia.
Qed.

Lemma getitem_In {A : Type} (l : list A) (i : Z) (x : A) :
  Py.getitem l i = Ok x -> In x l.
Proof.
  unfold Py.getitem. destruct (_ && _); [|discriminate].
  destruct (nth_error l _) eqn:E; [|discriminate].
  intros [= <-]. eapply nth_error_In. exact E.
Qed.

(** X6.  In a registered language the writer raises nothing but
    [IndexError] and [PitchNameNotAvailable] with that language.  It raises
    [IndexError] exactly when the note is outside -7..6 (a negative note
    counts from the last name), or the alteration is not 0 and its index
    [int(alter*4+4)] is outside -9..8. *)
Theorem write_in_errors (L : string) (info : LanguageInfo) (n : Z) (a : Q) :
  lookup pitchInfo L = Some info ->
  (forall e, write_in L n a = Raise e ->
             e = IndexError \/ e = PitchNameNotAvailable L)
  /\ (write_in L n a = Raise IndexError
      <-> (n < -7 \/ 6 < n)
          \/ (~ Qeq a 0
              /\ (Py.int (a * 4 + 4) < -9 \/ 8 < Py.int (a * 4 + 4)))).
Proof.
  intro HL. destruct (pitchInfo_shape L info HL) as [Hn [Ha _]].
  unfold write_in. rewrite (pitchWriter_registered L info HL). simpl.
  split.
  - intros e H. apply PitchWriter_call_raises in H. exact H.
  - unfold PitchWriter_call. cbn [w_names w_accs w_language w_replacements].
    pose proof (getitem_IndexError (info_names info) n) as Gn.
    rewrite Hn in Gn.
    destruct (Py.getitem (info_names info) n) as [name|e] eqn:En; simpl.
    + assert (~ (n < -7 \/ 6 < n)) as Rn.
      { intro C. assert (@Ok string name = Raise IndexError) as X
          by (apply Gn; lia). discriminate X. }
      unfold Py.truthy_num.
      destruct (Qeq_bool a 0) eqn:Ez; simpl.
      * apply Qeq_bool_iff in Ez. split; [discriminate|]. intros [C|[C _]]; tauto.
      * assert (~ Qeq a 0) as Nz
          by (intro C; apply Qeq_bool_iff in C; congruence).
        pose proof (getitem_IndexError (info_accs info) (Py.int (a * 4 + 4)))
          as Gi.
        rewrite Ha in Gi.
        destruct (Py.getitem (info_accs info) _) as [acc|e] eqn:Ei; simpl.
        -- destruct (Py.truthy_str acc); simpl.
           ++ split; [discriminate|]. intros [C|[_ C]]; [tauto|].
              assert (@Ok string acc = Raise IndexError) as X
                by (apply Gi; lia). discriminate X.
           ++ split; [discriminate|]. intros [C|[_ C]]; [tauto|].
              assert (@Ok string acc = Raise IndexError) as X
                by (apply Gi; lia). discriminate X.
        -- apply getitem_raises in Ei. subst e.
           split; [intros _|reflexivity]. right. split; [exact Nz|].
           assert (@Raise string IndexError = Raise IndexError) as X
             by reflexivity.
           apply Gi in X. lia.
    + apply getitem_raises in En. subst e.
      split; [intros _|reflexivity]. left.
      assert (@Raise string IndexError = Raise IndexError) as X by reflexivity.
      apply Gn in X. lia.
Qed.

Lemma write_in_errors_witness :
  write_in "english" 7 0 = Raise IndexError
  /\ write_in "english" 0 (5 # 4) = Raise IndexError.
Proof.
  split.
  - apply (proj2 (write_in_errors "english" english_info 7 0 eq_refl)).
    left. lia.
  - apply (proj2 (write_in_errors "english" english_info 0 (5 # 4) eq_refl)).
    right. split; [intro H; discriminate H | right; reflexivity].
Defined.

(** A negative note or index is no error: it counts from the end. *)
Example write_in_negative :
  write_in "english" (-1) 0 = Ok "b"
  /\ write_in "english" 0 (-5 # 4) = Ok "css".
Proof. split; reflexivity. Qed.

(** ** The two dictionaries of readers and writers *)

Lemma lookup_dict_set_same {A : Type} (d : list (string * A)) (k : string)
    (v : A) :
  lookup (dict_set d k v) k = Some v.
Proof.
  induction d as [|[k' v'] d IH]; simpl.
  - now rewrite String.eqb_refl.
  - destruct (String.eqb k' k) eqn:E; simpl.
    + now rewrite String.eqb_refl.
    + now rewrite E.
Qed.

Lemma lookup_dict_set_other {A : Type} (d : list (string * A)) (k k' : string)
    (v : A) :
  k' <> k -> lookup (dict_set d k v) k' = lookup d k'.
Proof.
  intro H. induction d as [|[k0 v0] d IH]; simpl.
  - destruct (String.eqb_spec k k'); [congruence | reflexivity].
  - destruct (String.eqb_spec k0 k) as [->|Hne]; simpl.
    + destruct (String.eqb_spec k k'); [congruence|].
      reflexivity.
    + destruct (String.eqb k0 k'); [reflexivity | exact IH].
Qed.

Lemma pitchReader_cached_memo (readers : list (string * PitchReader))
    (L : string) :
  pitchReader_cached readers L = memo pitchReader readers L.
Proof.
  unfold pitchReader_cached, memo, pitchReader.
  destruct (lookup readers L); [reflexivity|].
  destruct (dict_get pitchInfo L); reflexivity.
Qed.

Lemma pitchWriter_cached_memo (writers : list (string * PitchWriter))
    (L : string) :
  pitchWriter_cached writers L = memo pitchWriter writers L.
Proof.
  unfold pitchWriter_cached, memo, pitchWriter.
  destruct (lookup writers L); [reflexivity|].
  destruct (dict_get pitchInfo L); reflexivity.
Qed.

Section Memo.

Variable A : Type.
Variable build : string -> result A.

Lemma memo_spec (cache : list (string * A)) (k : string) :
  cache_ok build cache ->
  fst (memo build cache k) = build k
  /\ cache_ok build (snd (memo build cache k))
  /\ memo build (snd (memo build cache k)) k = memo build cache k
  /\ (forall e, build k = Raise e -> snd (memo build cache k) = cache)
  /\ (forall k', k' <> k ->
        lookup (snd (memo build cache k)) k' = lookup cache k').
Proof.
  intro Hok. unfold memo.
  destruct (lookup cache k) as [v|] eqn:E.
  - cbn [fst snd]. rewrite E. repeat split; auto.
    symmetry. apply Hok. exact E.
  - destruct (build k) as [v|e] eqn:B; cbn [fst snd].
    + split; [reflexivity|]. split.
      * intros k' v'. destruct (String.eqb_spec k' k) as [->|Hne].
        -- rewrite lookup_dict_set_same. intros [= <-]. exact B.
        -- rewrite lookup_dict_set_other by exact Hne. apply Hok.
      * split; [now rewrite lookup_dict_set_same|].
        split; [discriminate|].
        intros k' Hne. apply lookup_dict_set_other. exact Hne.
    + rewrite E. repeat split; auto.
Qed.

End Memo.

(** X7.  The dictionaries only save work.  From a dictionary whose objects
    were all built by the function (the empty one to begin with), a call
    returns what building anew returns, leaves the dictionary so, returns the
    same again at a second call without changing it further, leaves the other
    keys alone, and stores nothing when the language is unknown. *)
Theorem caches_transparent (readers : list (string * PitchReader))
    (writers : list (string * PitchWriter)) (L : string) :
  readers_ok readers -> writers_ok writers ->
  let r := pitchReader_cached readers L in
  let w := pitchWriter_cached writers L in
  (fst r = pitchReader L /\ fst w = pitchWriter L)
  /\ (readers_ok (snd r) /\ writers_ok (snd w))
  /\ (pitchReader_cached (snd r) L = r /\ pitchWriter_cached (snd w) L = w)
  /\ (has_key pitchInfo L = false ->
        r = (Raise (KeyError L), readers) /\ w = (Raise (KeyError L), writers))
  /\ (forall k, k <> L ->
        lookup (snd r) k = lookup readers k
        /\ lookup (snd w) k = lookup writers k).
Proof.
  intros Hr Hw r w. subst r w.
  rewrite !pitchReader_cached_memo, !pitchWriter_cached_memo.
  destruct (memo_spec _ pitchReader readers L Hr) as [R1 [R2 [R3 [R4 R5]]]].
  destruct (memo_spec _ pitchWriter writers L Hw) as [W1 [W2 [W3 [W4 W5]]]].
  split; [split; assumption|]. split; [split; assumption|].
  split; [split; assumption|]. split.
  - intro Hk.
    assert (lookup pitchInfo L = None) as N.
    { destruct (lookup pitchInfo L) eqn:E; [|reflexivity].
      assert (has_key pitchInfo L = true) by (apply has_key_lookup; eauto).
      congruence. }
    assert (pitchReader L = Raise (KeyError L)) as Br
      by (unfold pitchReader, dict_get; now rewrite N).
    assert (pitchWriter L = Raise (KeyError L)) as Bw
      by (unfold pitchWriter, dict_get; now rewrite N).
    split.
    + rewrite (surjective_pairing (memo pitchReader readers L)).
      rewrite R1, (R4 _ Br), Br. reflexivity.
    + rewrite (surjective_pairing (memo pitchWriter writers L)).
      rewrite W1, (W4 _ Bw), Bw. reflexivity.
  - intros k Hne. split; [apply R5 | apply W5]; exact Hne.
Qed.

Lemma caches_transparent_witness :
  fst (pitchWriter_cached [] "norsk") = pitchWriter "norsk"
  /\ pitchWriter_cached (snd (pitchWriter_cached [] "norsk")) "norsk"
     = pitchWriter_cached [] "norsk"
  /\ pitchReader_cached [] "klingon" = (Raise (KeyError "klingon"), []).
Proof.
  assert (readers_ok []) as Hr by (intros k r H; discriminate H).
  assert (writers_ok []) as Hw by (intros k w H; discriminate H).
  pose proof (caches_transparent [] [] "norsk" Hr Hw) as N.
  pose proof (caches_transparent [] [] "klingon" Hr Hw) as K.
  cbv zeta in N, K.
  split; [exact (proj2 (proj1 N))|].
  split; [exact (proj2 (proj1 (proj2 (proj2 N))))|].
  exact (proj1 (proj1 (proj2 (proj2 (proj2 K))) eq_refl)).
Defined.

(** A writer keeps the language it was asked for, also under an alias whose
    table entry is that of another language. *)
Example pitchWriter_cached_alias :
  fst (pitchWriter_cached (snd (pitchWriter_cached [] "deutsch")) "norsk")
  = Ok (mkWriter "norsk" (info_names deutsch_info) (info_accs deutsch_info)
          (info_replacements deutsch_info)).
Proof. reflexivity. Qed.

(** ** Aliases *)

Lemma PitchWriter_call_language (L1 L2 : string) (names accs : list string)
    (repl : list (string * string)) (n : Z) (a : Q) :
  match PitchWriter_call (mkWriter L1 names accs repl) n a,
        PitchWriter_call (mkWriter L2 names accs repl) n a with
  | Ok s1, Ok s2 => s1 = s2
  | Raise e1, Raise e2 =>
      (e1 = IndexError /\ e2 = IndexError)
      \/ (e1 = PitchNameNotAvailable L1 /\ e2 = PitchNameNotAvailable L2)
  | _, _ => False
  end.
Proof.
  unfold PitchWriter_call. cbn [w_names w_accs w_language w_replacements].
  destruct (Py.getitem names n) as [name|e] eqn:En; simpl.
  - destruct (Py.truthy_num a); simpl; [|reflexivity].
    destruct (Py.getitem accs _) as [acc|e] eqn:Ea; simpl.
    + destruct (Py.truthy_str acc); simpl; [reflexivity | right; auto].
    + apply getitem_raises in Ea. left. auto.
  - apply getitem_raises in En. left. auto.
Qed.

(** X8.  Two keys of [pitchInfo] with the same entry decode every text
    alike and encode every pitch alike; only the language carried by
    [PitchNameNotAvailable] is each one's own.  The keys norsk and suomi have
    the entry of deutsch, and catalan that of italiano. *)
Theorem alias_equivalence (L1 L2 : string) (info : LanguageInfo)
    (text : string) (n : Z) (a : Q) :
  lookup pitchInfo L1 = Some info -> lookup pitchInfo L2 = Some info ->
  read_in L1 text = read_in L2 text
  /\ (forall s, write_in L1 n a = Ok s <-> write_in L2 n a = Ok s)
  /\ (write_in L1 n a = Raise (PitchNameNotAvailable L1)
      <-> write_in L2 n a = Raise (PitchNameNotAvailable L2))
  /\ (write_in L1 n a = Raise IndexError
      <-> write_in L2 n a = Raise IndexError)
  /\ lookup pitchInfo "norsk" = lookup pitchInfo "deutsch"
  /\ lookup pitchInfo "suomi" = lookup pitchInfo "deutsch"
  /\ lookup pitchInfo "catalan" = lookup pitchInfo "italiano".
Proof.
  intros H1 H2. split.
  - unfold read_in.
    now rewrite (pitchReader_registered L1 info H1),
                (pitchReader_registered L2 info H2).
  - assert (forall e, write_in L1 n a = Raise e ->
                      e = IndexError \/ e = PitchNameNotAvailable L1) as E1.
    { intros e H. unfold write_in in H.
      rewrite (pitchWriter_registered L1 info H1) in H. simpl in H.
      apply PitchWriter_call_raises in H. exact H. }
    unfold write_in in *.
    rewrite (pitchWriter_registered L1 info H1),
            (pitchWriter_registered L2 info H2) in *. simpl in *.
    pose proof (PitchWriter_call_language L1 L2 (info_names info)
                  (info_accs info) (info_replacements info) n a) as P.
    destruct (PitchWriter_call (mkWriter L1 _ _ _) n a) as [s1|e1];
      destruct (PitchWriter_call (mkWriter L2 _ _ _) n a) as [s2|e2];
      try contradiction.
    + subst s2. repeat split; intros; try discriminate; auto.
    + destruct P as [[-> ->]|[-> ->]];
        repeat split; intros; try discriminate; auto.
Qed.

Lemma alias_equivalence_witness :
  read_in "norsk" "bes" = read_in "deutsch" "bes"
  /\ (write_in "catalan" 0 (1 # 4) = Ok "dosd"
      <-> write_in "italiano" 0 (1 # 4) = Ok "dosd").
Proof.
  split.
  - exact (proj1 (alias_equivalence "norsk" "deutsch" deutsch_info
                    "bes" 0 0 eq_refl eq_refl)).
  - exact (proj1 (proj2 (alias_equivalence "catalan" "italiano" italiano_info
                           "" 0 (1 # 4) eq_refl eq_refl)) "dosd").
Defined.

(** ** [Pitch.output] *)

Lemma count_nonneg (c : ascii) (s : string) : 0 <= Py.count c s.
Proof.
  induction s as [|d s IH]; simpl; [lia|]. destruct (Ascii.eqb d c); lia.
Qed.

Lemma count_drop (c : ascii) (k : nat) :
  forall s, Py.count c (Py.drop k s) <= Py.count c s.
Proof.
  induction k as [|k IH]; intro s; simpl; [lia|].
  destruct s as [|d s]; simpl; [lia|].
  specialize (IH s). destruct (Ascii.eqb d c); lia.
Qed.

Lemma writer_replace_count (c : ascii) (pairs : list (string * string))
    (pitch : string) :
  Forall (fun p => Py.count c (snd p) = 0) pairs ->
  Py.count c pitch = 0 ->
  Py.count c (writer_replace pairs pitch) = 0.
Proof.
  intros H Hp. induction H as [|[s r] pairs Hr _ IH]; simpl; [exact Hp|].
  destruct (Py.startswith pitch s); [|exact IH].
  rewrite count_append. simpl in Hr.
  pose proof (count_drop c (String.length s) pitch).
  pose proof (count_nonneg c (Py.drop (String.length s) pitch)). lia.
Qed.

Lemma PitchWriter_call_count (c : ascii) (w : PitchWriter) (n : Z) (a : Q)
    (s : string) :
  Forall (fun x => Py.count c x = 0) (w_names w) ->
  Forall (fun x => Py.count c x = 0) (w_accs w) ->
  Forall (fun p => Py.count c (snd p) = 0) (w_replacements w) ->
  PitchWriter_call w n a = Ok s ->
  Py.count c s = 0.
Proof.
  intros Hn Ha Hr. unfold PitchWriter_call.
  destruct (Py.getitem (w_names w) n) as [name|e] eqn:En; simpl; [|discriminate].
  apply getitem_In in En. rewrite Forall_forall in Hn. specialize (Hn _ En).
  destruct (Py.truthy_num a); simpl.
  - destruct (Py.getitem (w_accs w) _) as [acc|e] eqn:Ea; simpl; [|discriminate].
    apply getitem_In in Ea. rewrite Forall_forall in Ha. specialize (Ha _ Ea).
    destruct (Py.truthy_str acc); simpl; [|discriminate].
    intros [= <-]. apply writer_replace_count; [exact Hr|].
    rewrite count_append. lia.
  - intros [= <-]. apply writer_replace_count; assumption.
Qed.

Lemma pitchInfo_no_marks (L : string) (info : LanguageInfo) :
  lookup pitchInfo L = Some info -> info_no_marks info = true.
Proof.
  intro H. apply lookup_In in H. simpl in H.
  repeat (destruct H as [H|H]; [inversion H; subst; reflexivity|]).
  contradiction.
Qed.

Lemma no_marks_counts (c : ascii) (l : list string) :
  c = "'"%char \/ c = ","%char ->
  forallb no_marks l = true -> Forall (fun x => Py.count c x = 0) l.
Proof.
  intros Hc H. rewrite forallb_forall in H. apply Forall_forall.
  intros x Hx. specialize (H x Hx). unfold no_marks in H.
  apply andb_true_iff in H. destruct H as [H1 H2].
  apply Z.eqb_eq in H1. apply Z.eqb_eq in H2. destruct Hc; subst c; assumption.
Qed.

Lemma write_in_count (c : ascii) (L : string) (info : LanguageInfo) (n : Z)
    (a : Q) (s : string) :
  c = "'"%char \/ c = ","%char ->
  lookup pitchInfo L = Some info ->
  write_in L n a = Ok s -> Py.count c s = 0.
Proof.
  intros Hc HL H. pose proof (pitchInfo_no_marks L info HL) as M.
  unfold info_no_marks in M. apply andb_true_iff in M. destruct M as [M M3].
  apply andb_true_iff in M. destruct M as [M1 M2].
  unfold write_in in H. rewrite (pitchWriter_registered L info HL) in H.
  simpl in H. eapply PitchWriter_call_count; [| | |exact H]; simpl.
  - apply no_marks_counts; assumption.
  - apply no_marks_counts; assumption.
  - rewrite forallb_forall in M3. apply Forall_forall. intros p Hp.
    specialize (M3 p Hp). unfold no_marks in M3.
    apply andb_true_iff in M3. destruct M3 as [A1 A2].
    apply Z.eqb_eq in A1. apply Z.eqb_eq in A2.
    destruct Hc; subst c; assumption.
Qed.

(** X17.  In a registered language [output] is the written name followed by
    the octave marks, the name holds no mark, and so [octaveToNum] of the
    whole output is the octave of the pitch; [output] fails exactly as the
    writer does. *)
Theorem output_octave (L : string) (info : LanguageInfo) (p : Pitch) :
  lookup pitchInfo L = Some info ->
  (forall s, Pitch_output p L = Ok s ->
     octaveToNum s = octave p
     /\ exists name, write_in L (note p) (alter p) = Ok name
          /\ octaveToNum name = 0
          /\ s = (name ++ octaveToString (octave p))%string)
  /\ (forall e, Pitch_output p L = Raise e
               <-> write_in L (note p) (alter p) = Raise e).
Proof.
  intro HL. unfold Pitch_output.
  destruct (write_in L (note p) (alter p)) as [name|e] eqn:W; simpl.
  - split; [|intro e; split; discriminate].
    intros s [= <-].
    assert (octaveToNum name = 0) as Z0.
    { unfold octaveToNum.
      rewrite (write_in_count "'"%char L info _ _ name (or_introl eq_refl) HL W).
      rewrite (write_in_count ","%char L info _ _ name (or_intror eq_refl) HL W).
      reflexivity. }
    split; [|exists name; auto].
    unfold octaveToNum in *. rewrite !count_append.
    fold (octaveToNum (octaveToString (octave p))).
    pose proof (octaveToNum_octaveToString (octave p)) as S.
    unfold octaveToNum in S. lia.
  - split; [intros s H; discriminate H|]. intro e'. split; auto.
Qed.

Lemma output_octave_witness :
  octaveToNum "bes,," = -2
  /\ exists name, write_in "nederlands" 6 (-1 # 2) = Ok name
       /\ octaveToNum name = 0
       /\ "bes,," = (name ++ octaveToString (-2))%string.
Proof.
  exact (proj1 (output_octave "nederlands" nederlands_info
                  (mkPitch 6 (-1 # 2) (-2)) eq_refl) "bes,," eq_refl).
Defined.

(** ** More on [tokens] *)

Lemma length_app_string (a b : string) :
  String.length (a ++ b) = (String.length a + String.length b)%nat.
Proof. induction a as [|c a IH]; simpl; congruence. Qed.

Lemma drop_app_string (a b : string) : Py.drop (String.length a) (a ++ b) = b.
Proof. induction a as [|c a IH]; simpl; auto. Qed.

Lemma substring_app_string (a b : string) :
  substring 0 (String.length a) (a ++ b) = a.
Proof.
  induction a as [|c a IH]; simpl.
  - destruct b; reflexivity.
  - now rewrite IH.
Qed.

Lemma language_candidate_ly (t : Token) (L : string) :
  tok_text t = (L ++ ".ly")%string -> language_candidate t = L.
Proof.
  intro H. unfold language_candidate, Py.endswith, Py.drop_last. rewrite H.
  rewrite length_app_string. simpl String.length.
  replace (String.length L + 3 - 3)%nat with (String.length L) by lia.
  rewrite drop_app_string, substring_app_string.
  destruct (Nat.leb_spec 3 (String.length L + 3)); [|lia]. reflexivity.
Qed.

(** X10.  Over a source without an [\include] or [\language] keyword,
    [tokens] yields every token of the source, in order and unchanged, and the
    language of the iterator stays what it was. *)
Theorem tokens_without_directive (lang : option string) (src : list Token) :
  Forall (fun t => is_directive t = false) src ->
  tokens ScanningDefault lang src = map (fun t => (t, lang)) src
  /\ tokens_language ScanningDefault lang src = lang.
Proof.
  induction 1 as [|t src Ht _ [IH1 IH2]]; [split; reflexivity|].
  cbn [tokens tokens_language tokens_step map]. rewrite Ht, IH1, IH2.
  split; reflexivity.
Qed.

Lemma tokens_without_directive_witness :
  tokens ScanningDefault (Some "nederlands") [note_c; check_1; note_do]
  = [(note_c, Some "nederlands"); (check_1, Some "nederlands");
     (note_do, Some "nederlands")].
Proof.
  exact (proj1 (tokens_without_directive (Some "nederlands")
                  [note_c; check_1; note_do] ltac:(repeat constructor))).
Defined.

(** What [tokens] yields for one token of the source. *)
Lemma tokens_step_yield (m : GenMode) (lang : option string) (t : Token) :
  match tokens_step m lang t with
  | (Some x, _, lang') =>
      (x = t /\ lang' = lang)
      \/ (x = new_LanguageName (language_candidate t) (tok_pos t)
          /\ lang' = Some (language_candidate t)
          /\ has_key pitchInfo (language_candidate t) = true)
  | (None, _, lang') => lang' = lang
  end.
Proof.
  destruct m.
  - cbn [tokens_step]. left. auto.
  - destruct (skipped t) eqn:Hs.
    + rewrite (tokens_step_skipped lang t Hs). left. auto.
    + destruct (has_key pitchInfo (language_candidate t)) eqn:Hk.
      * rewrite (tokens_step_resolved lang t Hs Hk). right. auto.
      * rewrite (tokens_step_unresolved lang t Hs Hk). reflexivity.
Qed.

(** X11.  [tokens] yields at most one token for each token of the source;
    what it yields is a token of the source, or the marker of a candidate of
    the source whose name is a key of [pitchInfo], which is then the language.
    A language that is a key stays one, and when the source is exhausted the
    iterator has the language of the last token yielded. *)
Theorem tokens_yields (m : GenMode) (lang : option string) (src : list Token) :
  (List.length (tokens m lang src) <= List.length src)%nat
  /\ Forall (fun tl =>
       In (fst tl) src
       \/ exists t, In t src
            /\ fst tl = new_LanguageName (language_candidate t) (tok_pos t)
            /\ snd tl = Some (language_candidate t)
            /\ has_key pitchInfo (language_candidate t) = true)
       (tokens m lang src)
  /\ (registered lang = true ->
      Forall (fun tl => registered (snd tl) = true) (tokens m lang src))
  /\ tokens_language m lang src = last (map snd (tokens m lang src)) lang.
Proof.
  split; [|split; [|split; [apply tokens_registered
                            | apply tokens_language_last]]].
  - revert m lang. induction src as [|t src IH]; intros m lang; [simpl; lia|].
    cbn [tokens]. destruct (tokens_step m lang t) as [[[x|] m'] lang'];
      specialize (IH m' lang'); simpl; lia.
  - revert m lang. induction src as [|t src IH]; intros m lang; [constructor|].
    cbn [tokens]. pose proof (tokens_step_yield m lang t) as Y.
    destruct (tokens_step m lang t) as [[[x|] m'] lang'].
    + constructor.
      * cbn [fst snd]. destruct Y as [[-> _]|[-> [-> K]]].
        -- left. now left.
        -- right. exists t. repeat split; auto. now left.
      * eapply Forall_impl; [|apply IH]. intros tl [H|[t' [H1 H2]]].
        -- left. now right.
        -- right. exists t'. split; [now right | exact H2].
    + eapply Forall_impl; [|apply IH]. intros tl [H|[t' [H1 H2]]].
      * left. now right.
      * right. exists t'. split; [now right | exact H2].
Qed.

Lemma tokens_yields_witness :
  Forall (fun tl => registered (snd tl) = true)
         (tokens ScanningDefault (Some "nederlands")
                 [kw_language; space_9; name_klingon; note_h]).
Proof.
  exact (proj1 (proj2 (proj2 (tokens_yields ScanningDefault (Some "nederlands")
           [kw_language; space_9; name_klingon; note_h]))) eq_refl).
Defined.

(** X12.  A directive keyword met by the outer loop, followed by spaces
    and quote marks and then by a candidate whose name is a key of the
    table: the keyword and the skipped tokens are yielded with the old
    language, then a [LanguageName] marker with the name and the position of
    the candidate instead of the candidate, and the rest is scanned from the
    outer loop with the name as language.  A candidate [L.ly] names [L]. *)
Theorem resolved_directive (lang : option string) (kw : Token)
    (mid : list Token) (cand : Token) (rest : list Token) :
  is_directive kw = true ->
  Forall (fun t => skipped t = true) mid ->
  skipped cand = false ->
  has_key pitchInfo (language_candidate cand) = true ->
  let name := language_candidate cand in
  tokens ScanningDefault lang (kw :: mid ++ cand :: rest)%list
    = ((kw, lang) :: map (fun t => (t, lang)) mid
       ++ (new_LanguageName name (tok_pos cand), Some name)
       :: tokens ScanningDefault (Some name) rest)%list
  /\ tokens_language ScanningDefault lang (kw :: mid ++ [cand])%list
     = Some name
  /\ (forall L, tok_text cand = (L ++ ".ly")%string -> name = L).
Proof.
  intros Hkw Hmid Hcand Hkey name. split; [|split].
  - cbn [tokens tokens_step]. rewrite Hkw.
    destruct (tokens_awaiting_skipped lang mid (cand :: rest) Hmid) as [E _].
    rewrite E. cbn [tokens].
    rewrite (tokens_step_resolved lang cand Hcand Hkey). reflexivity.
  - cbn [tokens_language tokens_step]. rewrite Hkw.
    destruct (tokens_awaiting_skipped lang mid [cand] Hmid) as [_ E].
    rewrite E. cbn [tokens_language].
    rewrite (tokens_step_resolved lang cand Hcand Hkey). reflexivity.
  - intros L HL. apply language_candidate_ly. exact HL.
Qed.

Lemma resolved_directive_witness :
  tokens ScanningDefault (Some "nederlands")
         [kw_language; space_9; mkToken Other "deutsch.ly" 10 20; note_h]
  = [(kw_language, Some "nederlands"); (space_9, Some "nederlands");
     (new_LanguageName "deutsch" 10, Some "deutsch");
     (note_h, Some "deutsch")].
Proof.
  exact (proj1 (resolved_directive (Some "nederlands") kw_language [space_9]
                  (mkToken Other "deutsch.ly" 10 20) [note_h] eq_refl
                  ltac:(repeat constructor) eq_refl eq_refl)).
Defined.

(** ** More on [pitches] *)

Lemma TokenClass_eqb_eq (a b : TokenClass) :
  TokenClass_eqb a b = true <-> a = b.
Proof. destruct a, b; simpl; split; congruence. Qed.

Lemma isinstance_other (t : Token) (c d : TokenClass) :
  isinstance t c = true -> c <> d -> isinstance t d = false.
Proof.
  unfold isinstance. intros H Hne. apply TokenClass_eqb_eq in H.
  destruct (TokenClass_eqb (tok_class t) d) eqn:E; [|reflexivity].
  apply TokenClass_eqb_eq in E. congruence.
Qed.

Lemma examine_not_note (t : Token) (lang : option string) :
  isinstance t Note = false -> examine t lang = Ok ([YToken t], Scanning).
Proof. intro H. unfold examine. now rewrite H. Qed.

(** X14.  Over tokens none of which is a note, [pitches] yields every
    token, in order and unchanged, and raises nothing. *)
Theorem pitches_without_notes (toks : list (Token * option string)) :
  Forall (fun tl => isinstance (fst tl) Note = false) toks ->
  pitches_from Scanning toks = (map (fun tl => YToken (fst tl)) toks, None).
Proof.
  induction 1 as [|[t lang] toks Ht _ IH]; [reflexivity|].
  cbn [pitches_from pitches_step]. simpl in Ht.
  rewrite (examine_not_note t lang Ht). cbn [after_yield app].
  rewrite IH. reflexivity.
Qed.

Lemma pitches_without_notes_witness :
  pitches_from Scanning
    [(kw_language, Some "nederlands"); (check_1, Some "nederlands")]
  = ([YToken kw_language; YToken check_1], None).
Proof.
  exact (pitches_without_notes
           [(kw_language, Some "nederlands"); (check_1, Some "nederlands")]
           ltac:(repeat constructor)).
Defined.

Lemma last_Some_In {A : Type} (l : list A) :
  forall (dflt : option A) (x : A),
    List.last (map Some l) dflt = Some x -> dflt = Some x \/ In x l.
Proof.
  induction l as [|y l IH]; intros dflt x H; [now left|].
  destruct l as [|z l].
  - simpl in H. injection H as ->. right. now left.
  - change (List.last (map Some (z :: l)) dflt = Some x) in H.
    destruct (IH dflt x H) as [E|E]; [now left | right; now right].
Qed.

(** The last token a run of tokens leaves bound to [t] in the inner loop. *)
Lemma pitches_from_decoration (p : ScannedPitch)
    (deco rest : list (Token * option string)) :
  Forall (fun tl => isinstance (fst tl) Space
                    || isinstance (fst tl) Accidental = true) deco ->
  forall last,
    pitches_from (Collecting p last) (deco ++ rest)
    = pitches_from (Collecting p (List.last (map Some deco) last)) rest.
Proof.
  induction 1 as [|[d ld] deco Hd _ IH]; intro last; [reflexivity|].
  cbn [app pitches_from pitches_step]. simpl in Hd.
  assert (isinstance d Octave = false) as H1.
  { apply orb_true_iff in Hd.
    destruct Hd as [H|H]; eapply isinstance_other; try exact H; discriminate. }
  assert (isinstance d OctaveCheck = false) as H2.
  { apply orb_true_iff in Hd.
    destruct Hd as [H|H]; eapply isinstance_other; try exact H; discriminate. }
  rewrite H1, H2, Hd. cbn [negb app].
  rewrite IH.
  destruct (pitches_from _ rest) as [ys e] eqn:E.
  assert (List.last (map Some ((d, ld) :: deco)) last
          = List.last (map Some deco) (Some (d, ld))) as L.
  { clear. revert d ld last. induction deco as [|x deco IH]; intros d ld last.
    - reflexivity.
    - cbn [map]. change (List.last (Some (d, ld) :: Some x :: map Some deco) last)
        with (List.last (Some x :: map Some deco) last).
      cbn [map] in IH. destruct x as [x lx].
      rewrite (IH x lx last), (IH x lx (Some (d, ld))). reflexivity. }
  rewrite L, E. reflexivity.
Qed.

(** X18.  After a note that decodes, the [Space] and [Accidental] tokens
    that follow are consumed and not yielded.  An octave check that comes
    next is recorded in the pitch and, the pitch once yielded, is yielded
    again as a token; a token that is none of note, octave, octave check,
    space and accidental is yielded after the pitch.  If the source ends in
    the run, the pitch is yielded and then the last token of the run. *)
Theorem pitch_decoration (t : Token) (lang : option string) (na : Z * Q)
    (deco : list (Token * option string)) (x : Token) (lx : option string)
    (rest : list (Token * option string)) :
  isinstance t Note = true ->
  PitchIterator_read lang t = Ok (Some na) ->
  Forall (fun tl => isinstance (fst tl) Space
                    || isinstance (fst tl) Accidental = true) deco ->
  let p := new_scanned na t in
  let after := pitches_from Scanning rest in
  (isinstance x OctaveCheck = true ->
     pitches_from Scanning ((t, lang) :: deco ++ (x, lx) :: rest)
     = (YPitch (with_octaveCheck p x) :: YToken x :: fst after, snd after))
  /\ (isinstance x Other = true \/ isinstance x Keyword = true
      \/ isinstance x LanguageName = true ->
     pitches_from Scanning ((t, lang) :: deco ++ (x, lx) :: rest)
     = (YPitch p :: YToken x :: fst after, snd after))
  /\ pitches_from Scanning ((t, lang) :: deco)
     = (YPitch p :: match List.last (map Some deco) None with
                    | Some (d, _) => [YToken d]
                    | None => []
                    end, None).
Proof.
  intros Ht Hr Hdeco p after.
  assert (forall toks, pitches_from Scanning ((t, lang) :: toks)
                       = pitches_from (Collecting p None) toks) as Start.
  { intro toks. cbn [pitches_from pitches_step]. unfold examine.
    rewrite Ht, Hr. cbn [bind after_yield app]. unfold p.
    destruct (pitches_from (Collecting (new_scanned na t) None) toks).
    reflexivity. }
  split; [|split].
  - intro Hx. rewrite Start, (pitches_from_decoration p deco _ Hdeco).
    cbn [pitches_from pitches_step].
    rewrite (isinstance_other x OctaveCheck Octave Hx) by discriminate.
    rewrite Hx.
    rewrite (examine_not_note x lx
               (isinstance_other x OctaveCheck Note Hx ltac:(discriminate))).
    cbn [after_yield app]. subst after.
    destruct (pitches_from Scanning rest). reflexivity.
  - intro Hx. rewrite Start, (pitches_from_decoration p deco _ Hdeco).
    cbn [pitches_from pitches_step].
    assert (isinstance x Octave = false /\ isinstance x OctaveCheck = false
            /\ isinstance x Space = false /\ isinstance x Accidental = false
            /\ isinstance x Note = false) as [C1 [C2 [C3 [C4 C5]]]].
    { destruct Hx as [H|[H|H]]; repeat split;
        eapply isinstance_other; try exact H; discriminate. }
    rewrite C1, C2, C3, C4. cbn [orb negb].
    rewrite (examine_not_note x lx C5). cbn [after_yield app]. subst after.
    destruct (pitches_from Scanning rest). reflexivity.
  - rewrite Start. rewrite <- (app_nil_r deco) at 1.
    rewrite (pitches_from_decoration p deco [] Hdeco).
    cbn [pitches_from pitches_finish].
    destruct (List.last (map Some deco) None) as [[d ld]|] eqn:L; [|reflexivity].
    assert (In (d, ld) deco) as Hin.
    { destruct (last_Some_In deco None (d, ld) L) as [E|E];
        [discriminate | exact E]. }
    rewrite Forall_forall in Hdeco. specialize (Hdeco _ Hin). simpl in Hdeco.
    assert (isinstance d Note = false) as Hn.
    { apply orb_true_iff in Hdeco.
      destruct Hdeco as [H|H]; eapply isinstance_other; try exact H;
        discriminate. }
    rewrite (examine_not_note d ld Hn). reflexivity.
Qed.

Lemma pitch_decoration_witness :
  pitches_from Scanning
    [(note_c, Some "nederlands"); (space_9, Some "nederlands");
     (check_1, Some "nederlands")]
  = ([YPitch c_checked; YToken check_1], None)
  /\ pitches_from Scanning
       [(note_c, Some "nederlands"); (space_9, Some "nederlands")]
     = ([YPitch (new_scanned (0, 0%Q) note_c); YToken space_9], None).
Proof.
  pose proof (pitch_decoration note_c (Some "nederlands") (0, 0%Q)
                [(space_9, Some "nederlands")] check_1 (Some "nederlands") []
                eq_refl eq_refl ltac:(repeat constructor)) as H.
  split; [exact (proj1 H eq_refl) | exact (proj2 (proj2 H))].
Defined.

(** ** Invariants of [pitches] *)

Section ScannerInvariant.

Variable P : ScannedPitch -> Prop.

Hypothesis P_new :
  forall (L : string) (t : Token) (na : Z * Q),
    has_key pitchInfo L = true -> isinstance t Note = true ->
    read_in L (tok_text t) = Ok (Some na) -> P (new_scanned na t).

Hypothesis P_octave :
  forall (p : ScannedPitch) (t : Token),
    isinstance t Octave = true -> P p -> P (with_octave p t).

Hypothesis P_check :
  forall (p : ScannedPitch) (t : Token),
    isinstance t OctaveCheck = true -> P p -> P (with_octaveCheck p t).

Lemma examine_holds (t : Token) (lang : option string) :
  registered lang = true ->
  exists out st, examine t lang = Ok (out, st)
    /\ Forall (item_holds P) out /\ state_holds P st.
Proof.
  intro Hl. unfold examine. destruct (isinstance t Note) eqn:Hn.
  - destruct lang as [L|]; [|discriminate Hl]. simpl in Hl.
    destruct (read_in_total L (tok_text t) Hl) as [r Hr].
    unfold PitchIterator_read. rewrite Hr. simpl.
    destruct r as [na|].
    + exists [], (Collecting (new_scanned na t) None).
      repeat split; auto. eapply P_new; eassumption.
    + exists [], Scanning. repeat split; auto.
  - exists [YToken t], Scanning. repeat split; auto. constructor; simpl; auto.
Qed.

Lemma pitches_step_holds (st : PState) (tl : Token * option string) :
  state_holds P st -> registered (snd tl) = true ->
  exists out st', pitches_step st tl = (out, Ok st')
    /\ Forall (item_holds P) out /\ state_holds P st'.
Proof.
  destruct tl as [t lang]. intros Hst Hl. simpl in Hl.
  destruct (examine_holds t lang Hl) as [out [st' [E [Hout Hst']]]].
  unfold pitches_step. destruct st as [|p last].
  - rewrite E. simpl. eauto.
  - destruct Hst as [Hp _].
    destruct (isinstance t Octave) eqn:H1.
    { exists [], (Collecting (with_octave p t) (Some (t, lang))).
      repeat split; auto. }
    destruct (isinstance t OctaveCheck) eqn:H2.
    { rewrite E. simpl. exists (YPitch (with_octaveCheck p t) :: out), st'.
      repeat split; auto. constructor; [|exact Hout]. simpl. auto. }
    destruct (negb _).
    { rewrite E. simpl. exists (YPitch p :: out), st'. repeat split; auto. }
    exists [], (Collecting p (Some (t, lang))). repeat split; auto.
Qed.

Lemma pitches_finish_holds (st : PState) :
  state_holds P st ->
  exists out, pitches_finish st = (out, None) /\ Forall (item_holds P) out.
Proof.
  destruct st as [|p [[t lang]|]]; simpl.
  - eauto.
  - intros [Hp Hl].
    destruct (examine_holds t lang Hl) as [out [st' [E [Hout Hst']]]].
    rewrite E. destruct st' as [|p' last'].
    + eexists. split; [reflexivity|]. constructor; assumption.
    + eexists. split; [reflexivity|]. constructor; [assumption|].
      apply Forall_app. split; [assumption|].
      constructor; [apply Hst' | constructor].
  - intros [Hp _]. eexists. split; [reflexivity|].
    constructor; [exact Hp | constructor].
Qed.

Lemma pitches_from_holds (toks : list (Token * option string)) :
  forall st,
    state_holds P st ->
    Forall (fun tl => registered (snd tl) = true) toks ->
    exists out, pitches_from st toks = (out, None)
      /\ Forall (item_holds P) out.
Proof.
  induction toks as [|tl toks IH]; intros st Hst Htoks.
  - apply pitches_finish_holds. exact Hst.
  - inversion Htoks as [|? ? Hl Hrest]; subst.
    destruct (pitches_step_holds st tl Hst Hl) as [out [st' [E [Hout Hst']]]].
    destruct (IH st' Hst' Hrest) as [out' [E' Hout']].
    cbn [pitches_from]. rewrite E, E'.
    eexists. split; [reflexivity|]. apply Forall_app. split; assumption.
Qed.

Lemma pitches_holds (self : PitchIterator) :
  registered (language self) = true ->
  exists out, PitchIterator_pitches self = (out, None)
    /\ Forall (item_holds P) out.
Proof.
  intro H. unfold PitchIterator_pitches, PitchIterator_tokens.
  apply pitches_from_holds; [exact I|].
  apply tokens_registered. exact H.
Qed.

End ScannerInvariant.




(** X13.  Started with a language of the table, as [__init__] leaves it,
    [pitches] ends without an exception over any source, and every pitch it
    yields has its octave equal to [origOctave] and its octave check equal
    to [origOctaveCheck], with a span for the check exactly when there is
    one. *)
Theorem scanner_never_raises (self : PitchIterator) :
  registered (language self) = true ->
  exists out,
    PitchIterator_pitches self = (out, None)
    /\ Forall (item_holds untouched) out.
Proof.
  apply pitches_holds.
  - intros. apply new_scanned_untouched.
  - intros p t _. apply with_octave_untouched.
  - intros p t _. apply with_octaveCheck_untouched.
Qed.

Lemma scanner_never_raises_witness :
  exists out,
    PitchIterator_pitches
      (PitchIterator_init [note_h; kw_language; note_do; check_1])
    = (out, None)
    /\ Forall (item_holds untouched) out.
Proof.
  exact (scanner_never_raises
           (PitchIterator_init [note_h; kw_language; note_do; check_1])
           eq_refl).
Defined.




(** ** The calls of [write] *)

Lemma write_calls_appended (p : ScannedPitch) (document : Document)
    (name : string) :
  (let document :=
     if negb (String.eqb name (tok_text (noteToken p)))
     then (document ++ [SetItem (Some (Slice (tok_pos (noteToken p))
                                             (tok_end (noteToken p)))) name])%list
     else document in
   let document :=
     if negb (octave (pitch p) =? origOctave p)
     then (document ++ [SetItem (Some (octaveSlice p))
                                (octaveToString (octave (pitch p)))])%list
     else document in
   match origOctaveCheck p with
   | Some _ =>
       match octaveCheck p with
       | None => (document ++ [DelItem (octaveCheckSlice p)])%list
       | Some c =>
           (document ++ [SetItem (octaveCheckSlice p)
                                 ("=" ++ octaveToString c)%string])%list
       end
   | None => document
   end) = (document ++ write_calls p name)%list.
Proof.
  unfold write_calls.
  destruct (negb (String.eqb name (tok_text (noteToken p))));
    destruct (negb (octave (pitch p) =? origOctave p));
    destruct (origOctaveCheck p) as [c0|];
    try destruct (octaveCheck p) as [c|].
  all: cbv zeta.
  all: try (rewrite <- !app_assoc).
  all: try rewrite app_nil_r.
  all: reflexivity.
Qed.

Lemma write_calls_length (p : ScannedPitch) (name : string) :
  (List.length (write_calls p name) <= 3)%nat.
Proof.
  unfold write_calls. rewrite !length_app.
  destruct (negb _); destruct (negb _); destruct (origOctaveCheck p);
    try destruct (octaveCheck p); simpl; lia.
Qed.

Lemma write_calls_keys (p : ScannedPitch) (name : string) :
  Forall (fun c =>
    match c with
    | SetItem k _ =>
        k = Some (Slice (tok_pos (noteToken p)) (tok_end (noteToken p)))
        \/ k = Some (octaveSlice p) \/ k = octaveCheckSlice p
    | DelItem k =>
        k = octaveCheckSlice p
        /\ origOctaveCheck p <> None /\ octaveCheck p = None
    end) (write_calls p name).
Proof.
  unfold write_calls.
  apply Forall_app; split; [|apply Forall_app; split].
  - destruct (negb _); [|constructor].
    constructor; [left; reflexivity | constructor].
  - destruct (negb _); [|constructor].
    constructor; [right; left; reflexivity | constructor].
  - destruct (origOctaveCheck p) as [c0|] eqn:E0; [|constructor].
    destruct (octaveCheck p) as [c|] eqn:E1.
    + constructor; [right; right; reflexivity | constructor].
    + constructor; [|constructor].
      split; [reflexivity|]. split; [discriminate | reflexivity].
Qed.

(** X16.  [write] only adds calls to the document, at most three and in the
    order name, octave, check; each call is on the span of the note token, on
    [octaveSlice] or on [octaveCheckSlice]; a deletion is made only for a
    pitch that had a check and has none now; and nothing is added when the
    method raises. *)
Theorem write_frame (self : PitchIterator) (p : ScannedPitch)
    (document : Document) (language : option string) :
  exists calls,
    snd (write self p document language) = (document ++ calls)%list
    /\ (List.length calls <= 3)%nat
    /\ (forall e, fst (write self p document language) = Raise e ->
                  calls = [])
    /\ (forall name, (l <- language_or language self ;;
                      write_in l (note (pitch p)) (alter (pitch p))) = Ok name ->
                     calls = write_calls p name)
    /\ Forall (fun c =>
         match c with
         | SetItem k _ =>
             k = Some (Slice (tok_pos (noteToken p)) (tok_end (noteToken p)))
             \/ k = Some (octaveSlice p) \/ k = octaveCheckSlice p
         | DelItem k =>
             k = octaveCheckSlice p
             /\ origOctaveCheck p <> None /\ octaveCheck p = None
         end) calls.
Proof.
  unfold write.
  destruct (l <- language_or language self ;;
            write_in l (note (pitch p)) (alter (pitch p))) as [name|e].
  - exists (write_calls p name). cbn [fst snd].
    split; [apply write_calls_appended|].
    split; [apply write_calls_length|].
    split; [intros e H; discriminate H|].
    split; [intros name' [= <-]; reflexivity|].
    apply write_calls_keys.
  - exists []. cbn [fst snd]. rewrite app_nil_r.
    repeat split; auto. intros name H. discriminate H.
Qed.

(** ** Positions *)

Lemma subseq_nil_l {A : Type} (l : list A) : subseq [] l.
Proof. induction l; constructor; assumption. Qed.

Lemma subseq_refl {A : Type} (l : list A) : subseq l l.
Proof. induction l; constructor; assumption. Qed.

Lemma subseq_trans {A : Type} (l1 l2 l3 : list A) :
  subseq l1 l2 -> subseq l2 l3 -> subseq l1 l3.
Proof.
  intros H12 H23. revert l1 H12.
  induction H23 as [|x l2 l3 _ IH|x l2 l3 _ IH]; intros l1 H12.
  - exact H12.
  - constructor. apply IH. exact H12.
  - inversion H12; subst.
    + apply subseq_skip. apply IH. assumption.
    + apply subseq_cons. apply IH. assumption.
Qed.

Lemma subseq_app {A : Type} (l1 l2 l3 l4 : list A) :
  subseq l1 l2 -> subseq l3 l4 -> subseq (l1 ++ l3) (l2 ++ l4).
Proof.
  intros H12 H34. induction H12; simpl.
  - exact H34.
  - apply subseq_skip. assumption.
  - apply subseq_cons. assumption.
Qed.

Lemma subseq_In {A : Type} (l1 l2 : list A) (x : A) :
  subseq l1 l2 -> In x l1 -> In x l2.
Proof.
  induction 1; simpl; intuition.
Qed.

Lemma subseq_sorted (l1 l2 : list Z) :
  subseq l1 l2 -> StronglySorted Z.lt l2 -> StronglySorted Z.lt l1.
Proof.
  induction 1 as [|x l1 l2 H IH|x l1 l2 H IH]; intro S.
  - constructor.
  - inversion S; subst. auto.
  - inversion S as [|? ? S' F]; subst. constructor; [auto|].
    rewrite Forall_forall in *. intros y Hy. apply F.
    eapply subseq_In; eassumption.
Qed.

Lemma examine_positions (t : Token) (lang : option string)
    (out : list Item) (st : PState) :
  examine t lang = Ok (out, st) ->
  subseq (map position out ++ pending st) [tok_pos t].
Proof.
  unfold examine. destruct (isinstance t Note).
  - destruct (PitchIterator_read lang t) as [[na|]|e]; simpl;
      [| |discriminate]; intros [= <- <-]; simpl.
    + apply subseq_refl.
    + apply subseq_nil_l.
  - intros [= <- <-]. apply subseq_refl.
Qed.

Lemma pending_note (p : ScannedPitch)
    (last : option (Token * option string)) :
  subseq [tok_pos (noteToken p)] (pending (Collecting p last)).
Proof.
  destruct last as [[t l]|]; simpl; apply subseq_cons, subseq_nil_l.
Qed.

Lemma after_yield_positions (st : PState) (t : Token) (lang : option string)
    (p : ScannedPitch) (out : list Item) (r : result PState) :
  subseq [position (YPitch p)] (pending st) ->
  after_yield [YPitch p] (examine t lang) = (out, r) ->
  subseq (map position out
          ++ match r with Ok st' => pending st' | Raise _ => [] end)
         (pending st ++ [tok_pos t]).
Proof.
  intros Hs. unfold after_yield.
  destruct (examine t lang) as [[out' st']|e] eqn:E; intros [= <- <-].
  - apply examine_positions in E.
    exact (subseq_app [position (YPitch p)] (pending st) _ [tok_pos t] Hs E).
  - exact (subseq_app [position (YPitch p)] (pending st) [] [tok_pos t] Hs
             (subseq_nil_l _)).
Qed.

Lemma pitches_step_positions (st : PState) (tl : Token * option string)
    (out : list Item) (r : result PState) :
  pitches_step st tl = (out, r) ->
  subseq (map position out
          ++ match r with Ok st' => pending st' | Raise _ => [] end)
         (pending st ++ [tok_pos (fst tl)]).
Proof.
  destruct tl as [t lang]. unfold pitches_step. cbn [fst].
  destruct st as [|p last].
  - unfold after_yield.
    destruct (examine t lang) as [[out' st']|e] eqn:E; intros [= <- <-].
    + apply examine_positions in E. exact E.
    + apply subseq_nil_l.
  - destruct (isinstance t Octave).
    { intros [= <- <-]. simpl map. cbn [app].
      change (pending (Collecting (with_octave p t) (Some (t, lang))))
        with ([tok_pos (noteToken p)] ++ [tok_pos t])%list.
      apply subseq_app; [apply pending_note | apply subseq_refl]. }
    destruct (isinstance t OctaveCheck).
    { apply after_yield_positions. exact (pending_note p last). }
    destruct (negb _).
    { apply after_yield_positions. exact (pending_note p last). }
    intros [= <- <-]. simpl map. cbn [app].
    change (pending (Collecting p (Some (t, lang))))
      with ([tok_pos (noteToken p)] ++ [tok_pos t])%list.
    apply subseq_app; [apply pending_note | apply subseq_refl].
Qed.

Lemma pitches_finish_positions (st : PState) :
  subseq (map position (fst (pitches_finish st))) (pending st).
Proof.
  destruct st as [|p [[t lang]|]]; simpl.
  - constructor.
  - destruct (examine t lang) as [[out st']|e] eqn:E.
    + apply examine_positions in E.
      destruct st' as [|p' last']; cbn [fst map position].
      * rewrite app_nil_r in E. apply subseq_cons. exact E.
      * apply subseq_cons. rewrite map_app. eapply subseq_trans; [|exact E].
        apply subseq_app; [apply subseq_refl | apply pending_note].
    + cbn [fst map position]. apply subseq_cons, subseq_nil_l.
  - apply subseq_refl.
Qed.

Lemma pitches_from_positions (toks : list (Token * option string)) :
  forall st,
    subseq (map position (fst (pitches_from st toks)))
           (pending st ++ map (fun tl => tok_pos (fst tl)) toks).
Proof.
  induction toks as [|tl toks IH]; intro st.
  - simpl. rewrite app_nil_r. apply pitches_finish_positions.
  - cbn [pitches_from map].
    destruct (pitches_step st tl) as [out r] eqn:E.
    apply pitches_step_positions in E.
    change (pending st ++ tok_pos (fst tl)
                          :: map (fun tl0 => tok_pos (fst tl0)) toks)%list
      with (pending st ++ [tok_pos (fst tl)]
                       ++ map (fun tl0 => tok_pos (fst tl0)) toks)%list.
    rewrite app_assoc.
    destruct r as [st'|e].
    + specialize (IH st'). destruct (pitches_from st' toks) as [ys e'].
      cbn [fst] in *. rewrite map_app.
      eapply subseq_trans;
        [apply subseq_app; [apply subseq_refl | exact IH]|].
      rewrite app_assoc. apply subseq_app; [exact E | apply subseq_refl].
    + cbn [fst]. rewrite app_nil_r in E.
      rewrite <- (app_nil_r (map position out)).
      apply subseq_app; [exact E | apply subseq_nil_l].
Qed.

Lemma tokens_positions (src : list Token) :
  forall (m : GenMode) (lang : option string),
    subseq (map (fun tl => tok_pos (fst tl)) (tokens m lang src))
           (map tok_pos src).
Proof.
  induction src as [|t src IH]; intros m lang; [constructor|].
  cbn [tokens map]. pose proof (tokens_step_yield m lang t) as Y.
  destruct (tokens_step m lang t) as [[[x|] m'] lang'].
  - cbn [map fst].
    assert (tok_pos x = tok_pos t) as ->
      by (destruct Y as [[-> _]|[-> _]]; reflexivity).
    apply subseq_cons. apply IH.
  - apply subseq_skip. apply IH.
Qed.

(** X19.  The positions [position] gives for the items [pitches] yields, a
    pitch having that of its note token, are positions of tokens of the
    source, in the order of the source and each used at most once; so over a
    source whose positions increase, the positions of the items increase. *)
Theorem positions_increase (self : PitchIterator) :
  subseq (map position (fst (PitchIterator_pitches self)))
         (map tok_pos (source self))
  /\ (StronglySorted Z.lt (map tok_pos (source self)) ->
      StronglySorted Z.lt (map position (fst (PitchIterator_pitches self)))).
Proof.
  assert (subseq (map position (fst (PitchIterator_pitches self)))
                 (map tok_pos (source self))) as H.
  { unfold PitchIterator_pitches, PitchIterator_tokens.
    eapply subseq_trans; [apply (pitches_from_positions _ Scanning)|].
    simpl. apply tokens_positions. }
  split; [exact H|]. apply subseq_sorted. exact H.
Qed.

Lemma positions_increase_witness :
  StronglySorted Z.lt
    (map position
       (fst (PitchIterator_pitches
               (PitchIterator_init [note_c; check_1; space_9; note_h])))).
Proof.
  apply (proj2 (positions_increase
                  (PitchIterator_init [note_c; check_1; space_9; note_h]))).
  repeat constructor.
Defined.
